(** * mcp-shopping-list-firestore: the record store and the tool dispatcher

    A shallow embedding of [main.go].  The program keeps no state of its
    own: every item lives in one Firestore collection, and each tool call
    is a short sequence of client calls against it.  The embedding therefore
    threads an explicit [world] (the collection, the wall clock, the log and
    the counters of the two sources of nondeterminism) through the service
    methods and the three tool handlers.

    What lies outside [main.go] is modelled after its documented behaviour:
    - the Firestore client: [Create] inserts and refuses an existing
      document, [Update] rewrites the given field paths of an existing
      document and refuses a missing one, [Delete] carries no precondition,
      [GetAll] returns every document of the collection, [DataTo] fills the
      struct fields named by the [firestore] tags;
    - [uuid.New], [time.Now] and the network, which are read from an
      environment [env] that the development never constrains.
    Document ids are opaque strings.  Time is counted in microseconds since
    the Unix epoch, the resolution a Firestore timestamp keeps.  A round
    trip that fails is taken not to have been applied by the store, and
    [GetAll] returns the documents in one fixed order.  Calls are
    sequential: the development says nothing about interleavings of
    concurrent callers. *)

From Stdlib Require Import ZArith String List.
From stdpp Require Import gmap strings list fin_maps.

Set Warnings "-register-all".

Local Open Scope string_scope.
Local Open Scope list_scope.
Local Open Scope Z_scope.

(** ** Domain types *)

(** [Item] is a shopping list entry.  [Quantity] is a [*string] in the
    source: [None] is the nil pointer. *)
Record Item := mkItem {
  ID : string;
  Name : string;
  Quantity : option string;
  CreatedAt : Z
}.

(** [ItemInput] is the user-facing upsert payload. *)
Record ItemInput := mkItemInput {
  inID : option string;
  inName : string;
  inQuantity : option string
}.

(** [ListItemsResponse] wraps a list response. *)
Record ListItemsResponse := mkListItemsResponse {
  Items : list Item
}.

(** [UpsertItemRequest] is the tool request for creating/updating an item. *)
Record UpsertItemRequest := mkUpsertItemRequest {
  reqID : option string;
  reqName : string;
  reqQuantity : option string
}.

(** ** Values that cross the two boundaries *)

(** A tool argument is a Go [any] decoded from JSON.  Only the dynamic type
    matters to the handlers, which assert [string]; a JSON number is kept as
    an integer here since no handler ever looks at one. *)
Inductive any :=
  | AnyNil
  | AnyBool (b : bool)
  | AnyNumber (n : Z)
  | AnyString (s : string)
  | AnyArray (l : list any)
  | AnyObject (l : list (string * any)).

(** A Firestore field value. *)
Inductive fsvalue :=
  | NullValue
  | BooleanValue (b : bool)
  | IntegerValue (n : Z)
  | StringValue (s : string)
  | TimestampValue (t : Z).

(** The JSON text of a response, kept as a tree.  [JTime t] stands for the
    RFC 3339 string of [t]. *)
Inductive json :=
  | JString (s : string)
  | JTime (t : Z)
  | JArray (l : list json)
  | JObject (l : list (string * json)).

(** ** Errors *)

(** Why a call did not reach the store, or did not come back in time. *)
Inductive infra := Unavailable | DeadlineExceeded.

(** The status of a failed client call. *)
Inductive status :=
  | AlreadyExists
  | NotFound
  | Infra (i : infra).

(** A Go [error] value, as far as the program meets one: the status of a
    failed client call, what [DataTo] could not set, what [json.Marshal]
    could not encode, and [fmt.Errorf] wrapping one of them with [%w]. *)
Inductive error :=
  | StatusError (c : status)
  | CannotSet (field : string) (v : fsvalue)
  | MarshalerError
  | Errorf (format : string) (err : error).

Inductive result (A : Type) :=
  | Ok (a : A)
  | Err (e : error).
Arguments Ok {A} a.
Arguments Err {A} e.

(** A line written by [log.Printf]. *)
Inductive log_entry :=
  | Printf (format : string) (id : string) (err : error).

(** The text of a tool error: a literal, or [fmt.Sprintf] of a prefix and
    an error ([%v]). *)
Inductive message :=
  | Literal (s : string)
  | Sprintf (format : string) (err : error).

Inductive CallToolResult :=
  | NewToolResultText (text : json)
  | NewToolResultError (msg : message).

(** ** The world *)

(** What the program cannot decide: the identifiers [uuid.New] draws, and
    for each round trip to the store whether it fails on the way and how
    long it takes. *)
Record env := mkEnv {
  uuid_at : nat -> string;
  fault_at : nat -> option infra;
  latency_at : nat -> N
}.

Record world := mkWorld {
  collection : gmap string (gmap string fsvalue);
  wall : Z;
  drawn : nat;
  sent : nat;
  logged : list log_entry
}.

Definition set_collection (c : gmap string (gmap string fsvalue)) (w : world) : world :=
  mkWorld c (wall w) (drawn w) (sent w) (logged w).

(** A computation over the world. *)
Definition St (A : Type) : Type := world -> A * world.

Definition ret {A} (a : A) : St A := fun w => (a, w).

Definition bind {A B} (c : St A) (k : A -> St B) : St B :=
  fun w => let (a, w') := c w in k a w'.

Declare Scope st_scope.
Delimit Scope st_scope with st.
Notation "x <- c ;; k" := (bind c (fun x => k))
  (at level 100, c at next level, right associativity) : st_scope.
Notation "c ;; k" := (bind c (fun _ => k))
  (at level 100, right associativity) : st_scope.
Local Open Scope st_scope.

Section Program.

Variable E : env.

(** ** Outside [main.go] *)

(** [time.Now().UTC()] *)
Definition time_Now : St Z := fun w => (wall w, w).

(** [uuid.New().String()] *)
Definition uuid_New : St string := fun w =>
  (uuid_at E (drawn w),
   mkWorld (collection w) (wall w) (S (drawn w)) (sent w) (logged w)).

(** [log.Printf] *)
Definition log_Printf (l : log_entry) : St unit := fun w =>
  (tt, mkWorld (collection w) (wall w) (drawn w) (sent w) (logged w ++ [l])).

(** One round trip to the store: it takes its time, and it either gets
    through or fails for a reason of the infrastructure (the context's
    deadline included). *)
Definition roundtrip : St (option infra) := fun w =>
  (fault_at E (sent w),
   mkWorld (collection w) (wall w + Z.of_N (latency_at E (sent w)))
           (drawn w) (S (sent w)) (logged w)).

(** [Collection(c).Documents(ctx).GetAll()] *)
Definition Documents_GetAll : St (result (list (string * gmap string fsvalue))) :=
  f <- roundtrip ;;
  match f with
  | Some i => ret (Err (StatusError (Infra i)))
  | None => fun w => (Ok (map_to_list (collection w)), w)
  end.

(** [Collection(c).Doc(id).Create(ctx, data)] *)
Definition Doc_Create (id : string) (data : gmap string fsvalue) : St (result unit) :=
  f <- roundtrip ;;
  match f with
  | Some i => ret (Err (StatusError (Infra i)))
  | None => fun w =>
      match collection w !! id with
      | Some _ => (Err (StatusError AlreadyExists), w)
      | None => (Ok tt, set_collection (<[id := data]> (collection w)) w)
      end
  end.

(** [firestore.Update{Path: p, Value: v}] with a string value. *)
Record Update := mkUpdate { Path : string; Value : string }.

Definition apply_updates (updates : list Update) (d : gmap string fsvalue) : gmap string fsvalue :=
  fold_left (fun d u => <[Path u := StringValue (Value u)]> d) updates d.

(** [Collection(c).Doc(id).Update(ctx, updates)] *)
Definition Doc_Update (id : string) (updates : list Update) : St (result unit) :=
  f <- roundtrip ;;
  match f with
  | Some i => ret (Err (StatusError (Infra i)))
  | None => fun w =>
      match collection w !! id with
      | None => (Err (StatusError NotFound), w)
      | Some d => (Ok tt, set_collection (<[id := apply_updates updates d]> (collection w)) w)
      end
  end.

(** [Collection(c).Doc(id).Delete(ctx)] *)
Definition Doc_Delete (id : string) : St (result unit) :=
  f <- roundtrip ;;
  match f with
  | Some i => ret (Err (StatusError (Infra i)))
  | None => fun w => (Ok tt, set_collection (delete id (collection w)) w)
  end.

(** The document [Create] writes for an [Item], after the struct's
    [firestore] tags: [quantity] is [omitempty] and left out for a nil
    pointer. *)
Definition Item_toDoc (it : Item) : gmap string fsvalue :=
  let d : gmap string fsvalue :=
    <["id" := StringValue (ID it)]>
      (<["name" := StringValue (Name it)]>
        (<["created_at" := TimestampValue (CreatedAt it)]> ∅)) in
  match Quantity it with
  | None => d
  | Some q => <["quantity" := StringValue q]> d
  end.

(** The zero [time.Time]: January 1, year 1, 00:00:00 UTC. *)
Definition zero_time : Z := -62135596800000000.

Definition to_string (field : string) (v : option fsvalue) : result string :=
  match v with
  | None | Some NullValue => Ok ""
  | Some (StringValue s) => Ok s
  | Some v => Err (CannotSet field v)
  end.

Definition to_string_ptr (field : string) (v : option fsvalue) : result (option string) :=
  match v with
  | None | Some NullValue => Ok None
  | Some (StringValue s) => Ok (Some s)
  | Some v => Err (CannotSet field v)
  end.

Definition to_time (field : string) (v : option fsvalue) : result Z :=
  match v with
  | None | Some NullValue => Ok zero_time
  | Some (TimestampValue t) => Ok t
  | Some v => Err (CannotSet field v)
  end.

(** [d.DataTo(&it)] on a zero [Item]: a field the document lacks keeps its
    zero value, a field of the wrong type is an error, a field the struct
    lacks is ignored. *)
Definition DataTo (d : gmap string fsvalue) : result Item :=
  match to_string "ID" (d !! "id") with
  | Err e => Err e
  | Ok id =>
    match to_string "Name" (d !! "name") with
    | Err e => Err e
    | Ok name =>
      match to_string_ptr "Quantity" (d !! "quantity") with
      | Err e => Err e
      | Ok quantity =>
        match to_time "CreatedAt" (d !! "created_at") with
        | Err e => Err e
        | Ok created => Ok (mkItem id name quantity created)
        end
      end
    end
  end.

(** ** Firestore service *)

(** The [for _, d := range docs] loop of [ListItems], with the slice
    [items] it appends to. *)
Fixpoint range_docs (docs : list (string * gmap string fsvalue)) (items : list Item) : St (list Item) :=
  match docs with
  | [] => ret items
  | d :: rest =>
      match DataTo (snd d) with
      | Err err =>
          log_Printf (Printf "warn: unmarshal item %q: %v" (fst d) err) ;;
          range_docs rest items
      | Ok it => range_docs rest (items ++ [it])
      end
  end.

(** [ListItems] returns all items in the collection. *)
Definition ListItems : St (result (list Item)) :=
  r <- Documents_GetAll ;;
  match r with
  | Err err => ret (Err (Errorf "retrieve items: %w" err))
  | Ok docs => items <- range_docs docs [] ;; ret (Ok items)
  end.

(** [UpsertItem] creates a new item (if ID is empty) or updates an existing
    one.  Either branch returns its wrapped error at once; otherwise the
    method ends in [ListItems]. *)
Definition UpsertItem (input : ItemInput) : St (result (list Item)) :=
  now <- time_Now ;;
  let create : St (result unit) :=
    id <- uuid_New ;;
    let item := mkItem id (inName input) (inQuantity input) now in
    r <- Doc_Create id (Item_toDoc item) ;;
    match r with
    | Err err => ret (Err (Errorf "create item: %w" err))
    | Ok _ => ret (Ok tt)
    end in
  let update (id : string) : St (result unit) :=
    let updates := [mkUpdate "name" (inName input)] in
    let updates :=
      match inQuantity input with
      | Some q => updates ++ [mkUpdate "quantity" q]
      | None => updates
      end in
    r <- Doc_Update id updates ;;
    match r with
    | Err err => ret (Err (Errorf "update item: %w" err))
    | Ok _ => ret (Ok tt)
    end in
  r <- match inID input with
       | None => create
       | Some id => if decide (id = "") then create else update id
       end ;;
  match r with
  | Err err => ret (Err err)
  | Ok _ => ListItems
  end.

(** [RemoveItem] deletes a document by ID and returns the remaining list. *)
Definition RemoveItem (id : string) : St (result (list Item)) :=
  r <- Doc_Delete id ;;
  match r with
  | Err err => ret (Err (Errorf "delete item: %w" err))
  | Ok _ => ListItems
  end.

(** ** MCP server wiring *)

(** [time.Time.MarshalJSON] refuses a year outside [0, 9999]. *)
Definition year_in_range (t : Z) : bool :=
  (-62167219200000000 <=? t) && (t <? 253402300800000000).

(** [json.Marshal] of an [Item], after the struct's [json] tags. *)
Definition Item_MarshalJSON (it : Item) : option json :=
  if year_in_range (CreatedAt it) then
    Some (JObject
      ([("id", JString (ID it)); ("name", JString (Name it))]
       ++ match Quantity it with
          | Some q => [("quantity", JString q)]
          | None => []
          end
       ++ [("created_at", JTime (CreatedAt it))]))
  else None.

(** [json.Marshal] of a [ListItemsResponse]. *)
Definition json_Marshal (v : ListItemsResponse) : result json :=
  match mapM Item_MarshalJSON (Items v) with
  | Some items => Ok (JObject [("items", JArray items)])
  | None => Err MarshalerError
  end.

(** [jsonResult] marshals v as JSON into an MCP text result.  (The Go
    function, like every handler, also returns a nil error.) *)
Definition jsonResult (v : ListItemsResponse) : CallToolResult :=
  match json_Marshal v with
  | Err err => NewToolResultError (Sprintf "encode response: %v" err)
  | Ok b => NewToolResultText b
  end.

(** [args[key].(string)]: the value and [ok]. *)
Definition as_string (v : option any) : option string :=
  match v with
  | Some (AnyString s) => Some s
  | _ => None
  end.

(** The [list_items] handler. *)
Definition list_items (args : gmap string any) : St CallToolResult :=
  r <- ListItems ;;
  match r with
  | Err err => ret (NewToolResultError (Sprintf "failed to list items: %v" err))
  | Ok items => ret (jsonResult (mkListItemsResponse items))
  end.

(** The [upsert_item] handler. *)
Definition upsert_item (args : gmap string any) : St CallToolResult :=
  let itemReq := mkUpsertItemRequest None "" None in
  (* Extract required name field *)
  match as_string (args !! "name") with
  | None => ret (NewToolResultError (Literal "invalid or missing 'name'"))
  | Some name =>
    let itemReq := mkUpsertItemRequest (reqID itemReq) name (reqQuantity itemReq) in
    (* Extract optional id field *)
    let itemReq :=
      match as_string (args !! "id") with
      | Some id =>
          if decide (id <> "")
          then mkUpsertItemRequest (Some id) (reqName itemReq) (reqQuantity itemReq)
          else itemReq
      | None => itemReq
      end in
    (* Extract optional quantity field *)
    let itemReq :=
      match as_string (args !! "quantity") with
      | Some quantity =>
          if decide (quantity <> "")
          then mkUpsertItemRequest (reqID itemReq) (reqName itemReq) (Some quantity)
          else itemReq
      | None => itemReq
      end in
    (* Validate required fields *)
    if decide (reqName itemReq = "") then
      ret (NewToolResultError (Literal "'name' is required"))
    else
      r <- UpsertItem (mkItemInput (reqID itemReq) (reqName itemReq) (reqQuantity itemReq)) ;;
      match r with
      | Err err => ret (NewToolResultError (Sprintf "failed to upsert item: %v" err))
      | Ok items => ret (jsonResult (mkListItemsResponse items))
      end
  end.

(** The [remove_item] handler. *)
Definition remove_item (args : gmap string any) : St CallToolResult :=
  (* Extract required id field *)
  match as_string (args !! "id") with
  | None => ret (NewToolResultError (Literal "invalid or missing 'id'"))
  | Some id =>
    if decide (id = "") then
      ret (NewToolResultError (Literal "invalid or missing 'id'"))
    else
      r <- RemoveItem id ;;
      match r with
      | Err err => ret (NewToolResultError (Sprintf "failed to remove item: %v" err))
      | Ok items => ret (jsonResult (mkListItemsResponse items))
      end
  end.

(** A tool invocation as the transport delivers it, and the server's
    dispatch on the tool's name. *)
Inductive CallToolRequest :=
  | Call (tool : string) (args : gmap string any).

Definition tools : list (string * (gmap string any -> St CallToolResult)) :=
  [("list_items", list_items); ("upsert_item", upsert_item); ("remove_item", remove_item)].

Definition find_tool (name : string) : option (gmap string any -> St CallToolResult) :=
  snd <$> List.find (fun t => bool_decide (fst t = name)) tools.

(** One call leaves the world as its handler leaves it; a call to an
    unknown tool is answered by the server without reaching a handler. *)
Definition handle (req : CallToolRequest) (w : world) : world :=
  match req with
  | Call tool args =>
      match find_tool tool with
      | Some h => snd (h args w)
      | None => w
      end
  end.

(** The worlds a sequence of calls goes through, the first one included. *)
Fixpoint serve (reqs : list CallToolRequest) (w : world) : list world :=
  match reqs with
  | [] => [w]
  | req :: rest => w :: serve rest (handle req w)
  end.

End Program.

(** ** What the store holds, seen from outside *)

Section Views.

(** The item a fetched document decodes to, if it does. *)
Definition decode (d : string * gmap string fsvalue) : option Item :=
  match DataTo (snd d) with
  | Ok it => Some it
  | Err _ => None
  end.

(** The warning a fetched document causes, if it does not decode. *)
Definition warning (d : string * gmap string fsvalue) : option log_entry :=
  match DataTo (snd d) with
  | Ok _ => None
  | Err err => Some (Printf "warn: unmarshal item %q: %v" (fst d) err)
  end.

(** [List_spec], in the words of the specification: each stored document
    is decoded into an Item, a document that fails to decode is skipped,
    and the decoded items come in the order of the store. *)
Definition List_spec (c : gmap string (gmap string fsvalue)) : list Item :=
  omap decode (map_to_list c).

(** The item stored under a document id. *)
Definition item_at (id : string) (w : world) : option Item :=
  match collection w !! id with
  | Some d => decode (id, d)
  | None => None
  end.

(** The item stored under [id] has a quantity. *)
Definition has_quantity (id : string) (w : world) : Prop :=
  exists it, item_at id w = Some it /\ is_Some (Quantity it).

(** Every document carries its own id in its [id] field, as the documents
    written by [UpsertItem] do. *)
Definition keyed (c : gmap string (gmap string fsvalue)) : Prop :=
  forall id d, c !! id = Some d -> d !! "id" = Some (StringValue id).

(** The world once a round trip has been spent, and once lines were logged. *)
Definition tick (E : env) (w : world) : world :=
  mkWorld (collection w) (wall w + Z.of_N (latency_at E (sent w)))
          (drawn w) (S (sent w)) (logged w).

Definition add_log (ls : list log_entry) (w : world) : world :=
  mkWorld (collection w) (wall w) (drawn w) (sent w) (logged w ++ ls).

(** The arguments of [upsert_item] after the handler's coercion: an empty
    string counts as no string. *)
Definition nonempty (v : option any) : option string :=
  match as_string v with
  | Some s => if decide (s <> "") then Some s else None
  | None => None
  end.

(** The world once [uuid.New] has drawn an identifier. *)
Definition draw (w : world) : world :=
  mkWorld (collection w) (wall w) (S (drawn w)) (sent w) (logged w).

(** The item the create branch builds in world [w]. *)
Definition created (E : env) (input : ItemInput) (w : world) : Item :=
  mkItem (uuid_at E (drawn w)) (inName input) (inQuantity input) (wall w).

(** The document the update branch leaves in place of [d]. *)
Definition updated (input : ItemInput) (d : gmap string fsvalue) : gmap string fsvalue :=
  match inQuantity input with
  | Some q => <["quantity" := StringValue q]> (<["name" := StringValue (inName input)]> d)
  | None => <["name" := StringValue (inName input)]> d
  end.

(** The input the [upsert_item] handler hands to the service. *)
Definition input_of (args : gmap string any) (name : string) : ItemInput :=
  mkItemInput (nonempty (args !! "id")) name (nonempty (args !! "quantity")).

(** How one call may change the collection: by at most one document,
    inserted under a free id, rewritten by the update branch, or deleted. *)
Inductive touched (c c' : gmap string (gmap string fsvalue)) : Prop :=
  | touched_none : c' = c -> touched c c'
  | touched_insert id it : c !! id = None -> c' = <[id := Item_toDoc it]> c -> ID it = id -> touched c c'
  | touched_update id d input : c !! id = Some d -> c' = <[id := updated input d]> c -> touched c c'
  | touched_delete id : c' = delete id c -> touched c c'.

(** The service returned a list and its JSON is [text]. *)
Definition render_ok (r : result (list Item)) (text : json) : Prop :=
  exists items, r = Ok items /\ jsonResult (mkListItemsResponse items) = NewToolResultText text.

(** How a handler renders what the service returned. *)
Definition render (format : string) (r : result (list Item)) : CallToolResult :=
  match r with
  | Err err => NewToolResultError (Sprintf format err)
  | Ok items => jsonResult (mkListItemsResponse items)
  end.

End Views.

(** ** A small list to try the program on *)

Section Examples.

(** An environment in which every round trip gets through and takes one
    microsecond. *)
Definition E0 : env :=
  mkEnv (fun n => match n with O => "a1" | S O => "b2" | _ => "c3" end)
        (fun _ => None)
        (fun _ => 1%N).

(** An empty list, some time in November 2023. *)
Definition w0 : world := mkWorld ∅ 1700000000000000 0 0 [].

Definition args_milk : gmap string any :=
  <["name" := AnyString "milk"]> (<["quantity" := AnyString "2"]> ∅).

Definition args_oat : gmap string any :=
  <["name" := AnyString "oat milk"]> (<["id" := AnyString "a1"]> ∅).

Definition args_ghost : gmap string any :=
  <["name" := AnyString "bread"]> (<["id" := AnyString "zz"]> ∅).

Definition milk : Item := mkItem "a1" "milk" (Some "2") 1700000000000000.

(** The list once milk was added. *)
Definition w1 : world := snd (upsert_item E0 args_milk w0).

(** The list once eggs were added too. *)
Definition args_eggs : gmap string any := <["name" := AnyString "eggs"]> ∅.

Definition w2 : world := snd (upsert_item E0 args_eggs w1).

(** A collection with a document no [Item] can be read from: its [name]
    is a number. *)
Definition torn : gmap string fsvalue :=
  <["id" := StringValue "t0"]> (<["name" := IntegerValue 7]> ∅).

Definition w_torn : world :=
  mkWorld (<["t0" := torn]> (collection w1)) 1700000000000009 1 2 [].

(** An environment that draws the identifier of milk again, and one whose
    second round trip is lost. *)
Definition E_again : env :=
  mkEnv (fun _ => "a1") (fun _ => None) (fun _ => 1%N).

Definition E_lossy : env :=
  mkEnv (fun _ => "d4")
        (fun n => match n with S O => Some Unavailable | _ => None end)
        (fun _ => 1%N).

Definition text_milk : json :=
  JObject [("items",
    JArray [JObject [("id", JString "a1"); ("name", JString "milk");
                     ("quantity", JString "2"); ("created_at", JTime 1700000000000000)]])].

End Examples.

(** ** Process bootstrap *)

(** [NewShoppingListService] and [main] talk to the host, not to the store:
    they read the environment, look at a file, build the client, start a
    transport and exit.  They are embedded as functions to the sequence of
    those effects, the host's answers being read from a [host]. *)

Inductive ClientOption :=
  | WithCredentialsFile (path : string).

(** The client [firestore.NewClientWithDatabase] returns. *)
Record Client := mkClient {
  client_projectID : string;
  client_database : string;
  client_opts : list ClientOption
}.

(** [ShoppingListService] encapsulates Firestore operations. *)
Record ShoppingListService := mkShoppingListService {
  client : Client;
  database : string;
  collection_name : string
}.

(** A Go [error] value at start-up: made by [errors.New], handed over by the
    host, or wrapped by [fmt.Errorf]. *)
Inductive boot_error :=
  | errors_New (text : string)
  | HostError (text : string)
  | fmt_Errorf (format : string) (err : boot_error).

(** What the host answers: the environment variables, the error of
    [os.Stat] on a path, of the client constructor, of [Close], and of the
    transport when it stops. *)
Record host := mkHost {
  os_Getenv : string -> string;
  os_Stat : string -> option string;
  NewClientWithDatabase_err : string -> string -> list ClientOption -> option string;
  Close_err : option string;
  Start_err : string -> option string;
  ServeStdio_err : option string
}.

(** What the process does to the host. *)
Inductive effect :=
  | Stat (path : string)
  | NewClientWithDatabase (projectID database : string) (opts : list ClientOption)
  | Stdout (format : string) (a : list string)
  | Stderr (format : string) (a : list (string + boot_error))
  | LogPrintf (format : string) (err : boot_error)
  | Start (addr : string)
  | ServeStdio
  | Close (c : Client)
  | Exit (code : Z).

(** The flags [flag.Parse] has read. *)
Record flags := mkFlags {
  httpAddr : string;
  credentialsPath : string
}.

Section Bootstrap.

Variable H : host.

(** [NewShoppingListService] initializes a Firestore client and returns the
    service. *)
Definition NewShoppingListService (projectID database collection credentialsPath : string)
  : list effect * (ShoppingListService + boot_error) :=
  if decide (projectID = "") then
    ([], inr (errors_New "projectID is required"))
  else if decide (database = "") then
    ([], inr (errors_New "database is required"))
  else if decide (collection = "") then
    ([], inr (errors_New "collection is required"))
  else
    let checked : list effect * (list ClientOption + boot_error) :=
      if decide (credentialsPath <> "") then
        match os_Stat H credentialsPath with
        | Some err =>
            ([Stat credentialsPath],
             inr (fmt_Errorf "credentials file: %w" (HostError err)))
        | None =>
            ([Stat credentialsPath], inl ([] ++ [WithCredentialsFile credentialsPath]))
        end
      else ([], inl []) in
    match checked with
    | (fx, inr err) => (fx, inr err)
    | (fx, inl opts) =>
        let fx := fx ++ [NewClientWithDatabase projectID database opts] in
        match NewClientWithDatabase_err H projectID database opts with
        | Some err => (fx, inr (fmt_Errorf "create firestore client: %w" (HostError err)))
        | None =>
            (fx, inl (mkShoppingListService (mkClient projectID database opts)
                                             database collection))
        end
    end.

(** [Close] releases Firestore resources. *)
Definition ShoppingListService_Close (s : ShoppingListService) : list effect * option boot_error :=
  ([Close (client s)], HostError <$> Close_err H).

(** [fatal] prints to standard error and exits with status 1; deferred
    calls do not run past [os.Exit]. *)
Definition fatal (format : string) (a : list (string + boot_error)) : list effect :=
  [Stderr (String.append "Error: " (String.append format "\n")) a; Exit 1].

(** The function [main] defers once the service exists. *)
Definition deferred_Close (service : ShoppingListService) : list effect :=
  match ShoppingListService_Close service with
  | (fx, Some err) => fx ++ [LogPrintf "warn: closing Firestore: %v" err]
  | (fx, None) => fx
  end.

(** [main], from the parsed flags on.  Returning from [main] runs the
    deferred [Close]; [fatal] does not. *)
Definition main (f : flags) : list effect :=
  let defaultCollection := "shopping" in
  (* Resolve project ID. *)
  let projectID := os_Getenv H "GOOGLE_CLOUD_PROJECT" in
  if decide (projectID = "") then
    fatal "Google Cloud Project ID is required; set the GOOGLE_CLOUD_PROJECT environment variable" []
  else
    (* Resolve Firestore database. *)
    let firestoreDatabase := os_Getenv H "FIRESTORE_DATABASE" in
    if decide (firestoreDatabase = "") then
      fatal "Firestore database name is required; set FIRESTORE_DATABASE" []
    else
      match NewShoppingListService projectID firestoreDatabase defaultCollection
                                   (credentialsPath f) with
      | (fx, inr err) => fx ++ fatal "initialize Firestore: %v" [inr err]
      | (fx, inl service) =>
          if decide (httpAddr f <> "") then
            fx ++ [Stdout "Starting MCP server using Streamable HTTP transport on %s\n"
                          [httpAddr f];
                   Stdout "Project: %s | Database: %s | Collection: %s\n"
                          [projectID; firestoreDatabase; defaultCollection];
                   Stdout "Streamable HTTP Endpoint: http://localhost:%s/mcp\n"
                          [httpAddr f];
                   Start (String.append ":" (httpAddr f))]
               ++ match Start_err H (String.append ":" (httpAddr f)) with
                  | Some err =>
                      fatal "Streamable HTTP server failed to start: %v" [inr (HostError err)]
                  | None => deferred_Close service
                  end
          else
            (* stdio mode *)
            fx ++ [ServeStdio]
               ++ match ServeStdio_err H with
                  | Some err => fatal "MCP stdio terminated: %v" [inr (HostError err)]
                  | None => deferred_Close service
                  end
      end.

(** The effects that start a transport. *)
Definition is_transport (e : effect) : bool :=
  match e with
  | Start _ | ServeStdio => true
  | _ => false
  end.

(** The error the transport [main] starts stops with, if it does. *)
Definition transport_err (f : flags) : option string :=
  if decide (httpAddr f <> "") then Start_err H (String.append ":" (httpAddr f))
  else ServeStdio_err H.

End Bootstrap.

(** ** More views of the store *)

Section Shapes.

(** Every round trip of the environment gets through. *)
Definition reliable (E : env) : Prop := forall n, fault_at E n = None.

(** Every document of the collection reads as an item. *)
Definition all_items (c : gmap string (gmap string fsvalue)) : Prop :=
  forall id d, c !! id = Some d -> exists it, DataTo d = Ok it.

(** No item of the collection has an empty name. *)
Definition named (c : gmap string (gmap string fsvalue)) : Prop :=
  forall id d it, c !! id = Some d -> DataTo d = Ok it -> Name it <> "".

(** A collection as the program itself writes it. *)
Definition well_formed (c : gmap string (gmap string fsvalue)) : Prop :=
  keyed c /\ all_items c /\ named c.

(** [touched], with what the handlers know about the name they write. *)
Inductive written (c c' : gmap string (gmap string fsvalue)) : Prop :=
  | written_none : c' = c -> written c c'
  | written_insert id it :
      c !! id = None -> c' = <[id := Item_toDoc it]> c -> ID it = id -> Name it <> "" ->
      written c c'
  | written_update id d input :
      c !! id = Some d -> c' = <[id := updated input d]> c -> inName input <> "" ->
      written c c'
  | written_delete id : c' = delete id c -> written c c'.

(** What a call may cost and leave besides the collection: at most two
    round trips, at most one identifier, the warnings of at most one list,
    and a clock that did not go back. *)
Definition within (w w' : world) : Prop :=
  (logged w' = logged w
   \/ logged w' = logged w ++ omap warning (map_to_list (collection w')))
  /\ (sent w <= sent w' <= sent w + 2)%nat
  /\ (drawn w <= drawn w' <= drawn w + 1)%nat
  /\ wall w <= wall w'.

End Shapes.

(** ** Hosts and networks to try the program on *)

Section Hosts.

(** A network that is down. *)
Definition E_down : env :=
  mkEnv (fun _ => "e5") (fun _ => Some Unavailable) (fun _ => 1%N).

(** A configured host on which everything works, the same host without its
    environment, and the same host with a transport that breaks. *)
Definition H_ok : host :=
  mkHost (fun key => if decide (key = "GOOGLE_CLOUD_PROJECT") then "proj"
                     else if decide (key = "FIRESTORE_DATABASE") then "db" else "")
         (fun _ => None) (fun _ _ _ => None) None (fun _ => None) None.

Definition H_bare : host :=
  mkHost (fun _ => "") (fun _ => None) (fun _ _ _ => None) None (fun _ => None) None.

Definition H_broken : host :=
  mkHost (os_Getenv H_ok) (fun _ => None) (fun _ _ _ => None) None
         (fun _ => Some "address already in use") (Some "broken pipe").

Definition stdio : flags := mkFlags "" "".

Definition http_8080 : flags := mkFlags "8080" "key.json".

End Hosts.

(** ** The service, one client call at a time *)

(** Unfold the plumbing of [St]. *)
Ltac run := unfold bind, ret, roundtrip, time_Now, uuid_New, log_Printf,
                   set_collection, draw, tick, add_log; simpl.

Section Service.

Variable E : env.

Lemma omap_step {A B} (f : A -> option B) (x : A) (l : list A) :
  omap f (x :: l) = match f x with Some y => y :: omap f l | None => omap f l end.
Proof. done. Qed.

Lemma add_log_nil w : add_log [] w = w.
Proof. destruct w. unfold add_log. simpl. by rewrite app_nil_r. Qed.

Lemma add_log_app l1 l2 w : add_log l2 (add_log l1 w) = add_log (l1 ++ l2) w.
Proof. unfold add_log. simpl. by rewrite app_assoc. Qed.

(** The loop of [ListItems] appends the decoded items in order and logs
    one warning per document it skips. *)
Lemma range_docs_eq docs :
  forall items w,
    range_docs docs items w = (items ++ omap decode docs, add_log (omap warning docs) w).
Proof.
  induction docs as [|d rest IH]; intros items w.
  - simpl. unfold ret. by rewrite app_nil_r, add_log_nil.
  - simpl. unfold decode, warning. destruct (DataTo (snd d)) as [it|err].
    + rewrite IH. by rewrite <- app_assoc.
    + unfold bind, log_Printf at 1. rewrite IH. simpl.
      f_equal. unfold add_log. simpl. by rewrite <- app_assoc.
Qed.

Lemma ListItems_eq w :
  ListItems E w =
    match fault_at E (sent w) with
    | Some i => (Err (Errorf "retrieve items: %w" (StatusError (Infra i))), tick E w)
    | None => (Ok (List_spec (collection w)),
               add_log (omap warning (map_to_list (collection w))) (tick E w))
    end.
Proof.
  unfold ListItems, Documents_GetAll, bind at 1 2, roundtrip. simpl.
  destruct (fault_at E (sent w)); [done|].
  unfold bind. rewrite range_docs_eq. done.
Qed.

Lemma ListItems_collection w : collection (snd (ListItems E w)) = collection w.
Proof. rewrite ListItems_eq. by destruct (fault_at E (sent w)). Qed.

Lemma DataTo_toDoc it : DataTo (Item_toDoc it) = Ok it.
Proof.
  destruct it as [id name [q|] created_at]; unfold DataTo, Item_toDoc; simpl;
    repeat (rewrite lookup_insert_eq || (rewrite lookup_insert_ne by done));
    rewrite ?lookup_empty; done.
Qed.

Lemma DataTo_updated input d it :
  DataTo d = Ok it ->
  DataTo (updated input d) =
    Ok (mkItem (ID it) (inName input)
               (match inQuantity input with Some q => Some q | None => Quantity it end)
               (CreatedAt it)).
Proof.
  unfold DataTo, updated. intros H.
  destruct (inQuantity input) as [q|];
    repeat (rewrite lookup_insert_eq || (rewrite lookup_insert_ne by done)); simpl;
    destruct (to_string "ID" (d !! "id")) as [i|]; try done;
    destruct (to_string "Name" (d !! "name")) as [n|]; try done;
    destruct (to_string_ptr "Quantity" (d !! "quantity")) as [q0|]; try done;
    destruct (to_time "CreatedAt" (d !! "created_at")) as [t|]; try done;
    by inversion H.
Qed.

Lemma UpsertItem_create input w :
  inID input = None \/ inID input = Some "" ->
  UpsertItem E input w =
    let id := uuid_at E (drawn w) in
    match fault_at E (sent w) with
    | Some i => (Err (Errorf "create item: %w" (StatusError (Infra i))), tick E (draw w))
    | None =>
        match collection w !! id with
        | Some _ =>
            (Err (Errorf "create item: %w" (StatusError AlreadyExists)), tick E (draw w))
        | None =>
            ListItems E
              (set_collection (<[id := Item_toDoc (created E input w)]> (collection w))
                              (tick E (draw w)))
        end
    end.
Proof.
  intros Hid. unfold UpsertItem, Doc_Create.
  run. destruct (inID input) as [id|] eqn:Hin.
  - destruct Hid as [?| [= ->]]; [done|]. rewrite decide_True by done. run.
    destruct (fault_at E (sent w)); [done|]. simpl.
    by destruct (collection w !! uuid_at E (drawn w)).
  - run. destruct (fault_at E (sent w)); [done|]. simpl.
    by destruct (collection w !! uuid_at E (drawn w)).
Qed.

Lemma UpsertItem_update input id w :
  inID input = Some id -> id <> "" ->
  UpsertItem E input w =
    match fault_at E (sent w) with
    | Some i => (Err (Errorf "update item: %w" (StatusError (Infra i))), tick E w)
    | None =>
        match collection w !! id with
        | None => (Err (Errorf "update item: %w" (StatusError NotFound)), tick E w)
        | Some d =>
            ListItems E (set_collection (<[id := updated input d]> (collection w)) (tick E w))
        end
    end.
Proof.
  intros Hid Hne. unfold UpsertItem, Doc_Update. rewrite Hid.
  run. rewrite decide_False by done. run.
  destruct (fault_at E (sent w)); [done|]. simpl.
  destruct (collection w !! id) as [d|]; [|done].
  unfold updated, apply_updates. by destruct (inQuantity input).
Qed.

Lemma RemoveItem_eq id w :
  RemoveItem E id w =
    match fault_at E (sent w) with
    | Some i => (Err (Errorf "delete item: %w" (StatusError (Infra i))), tick E w)
    | None => ListItems E (set_collection (delete id (collection w)) (tick E w))
    end.
Proof.
  unfold RemoveItem, Doc_Delete. run. by destruct (fault_at E (sent w)).
Qed.

End Service.

(** ** The handlers, reduced to the service *)

Section Dispatcher.

Variable E : env.

Lemma nonempty_absent (args : gmap string any) (key : string) :
  args !! key = None \/ args !! key = Some (AnyString "") ->
  nonempty (args !! key) = None.
Proof. by intros [-> | ->]. Qed.

Lemma nonempty_present (args : gmap string any) (key s : string) :
  args !! key = Some (AnyString s) -> s <> "" -> nonempty (args !! key) = Some s.
Proof. intros -> Hs. unfold nonempty. simpl. by rewrite decide_True. Qed.

Lemma upsert_item_valid args name w :
  args !! "name" = Some (AnyString name) -> name <> "" ->
  upsert_item E args w =
    (render "failed to upsert item: %v" (fst (UpsertItem E (input_of args name) w)),
     snd (UpsertItem E (input_of args name) w)).
Proof.
  intros Hname Hne. unfold upsert_item, input_of, nonempty. rewrite Hname. simpl.
  destruct (as_string (args !! "id")) as [id|];
    destruct (as_string (args !! "quantity")) as [q|];
    repeat case_decide; simpl; try done;
    unfold bind; by destruct (UpsertItem E _ w) as [[items|err] w'].
Qed.

Lemma remove_item_valid args id w :
  args !! "id" = Some (AnyString id) -> id <> "" ->
  remove_item E args w =
    (render "failed to remove item: %v" (fst (RemoveItem E id w)),
     snd (RemoveItem E id w)).
Proof.
  intros Hid Hne. unfold remove_item. rewrite Hid. simpl.
  rewrite decide_False by done.
  unfold bind. by destruct (RemoveItem E id w) as [[items|err] w'].
Qed.


Lemma elem_of_List_spec (c : gmap string (gmap string fsvalue)) it :
  it ∈ List_spec c <-> exists id d, c !! id = Some d /\ DataTo d = Ok it.
Proof.
  unfold List_spec. rewrite list_elem_of_omap. split.
  - intros [[id d] [Hin Hdec]]. apply elem_of_map_to_list in Hin.
    exists id, d. split; [done|]. unfold decode in Hdec. simpl in Hdec.
    destruct (DataTo d); congruence.
  - intros (id & d & Hin & Hdec). exists (id, d). split.
    + by apply elem_of_map_to_list.
    + unfold decode. simpl. by rewrite Hdec.
Qed.

Lemma DataTo_keyed d id it :
  d !! "id" = Some (StringValue id) -> DataTo d = Ok it -> ID it = id.
Proof.
  unfold DataTo. intros ->. simpl.
  destruct (to_string "Name" (d !! "name")); try done.
  destruct (to_string_ptr "Quantity" (d !! "quantity")); try done.
  destruct (to_time "CreatedAt" (d !! "created_at")); try done.
  by intros [= <-].
Qed.

Lemma as_string_Some v s : as_string v = Some s -> v = Some (AnyString s).
Proof. destruct v as [[]|]; simpl; congruence. Qed.

Lemma upsert_item_invalid args w :
  as_string (args !! "name") = None \/ as_string (args !! "name") = Some "" ->
  exists msg, upsert_item E args w = (NewToolResultError (Literal msg), w).
Proof.
  unfold upsert_item. intros [-> | ->]; [by eexists|]. simpl.
  destruct (as_string (args !! "id")) as [id|];
    destruct (as_string (args !! "quantity")) as [q|];
    repeat case_decide; simpl; try done; by eexists.
Qed.

Lemma jsonResult_text v text :
  jsonResult v = NewToolResultText text ->
  json_Marshal v = Ok text /\
  exists js, mapM Item_MarshalJSON (Items v) = Some js /\ text = JObject [("items", JArray js)].
Proof.
  unfold jsonResult, json_Marshal.
  destruct (mapM Item_MarshalJSON (Items v)) as [js|]; [|done].
  intros [= <-]. split; [done|]. by exists js.
Qed.

Lemma render_text format r text :
  render format r = NewToolResultText text ->
  exists items, r = Ok items /\ jsonResult (mkListItemsResponse items) = NewToolResultText text.
Proof. destruct r as [items|err]; [|done]. intros H. by exists items. Qed.

(** The collection a handler leaves behind is [touched]. *)
Lemma list_items_collection args w :
  collection (snd (list_items E args w)) = collection w.
Proof.
  unfold list_items, bind. rewrite <- (ListItems_collection E w).
  by destruct (ListItems E w) as [[items|err] w'].
Qed.

Lemma UpsertItem_touched input w :
  touched (collection w) (collection (snd (UpsertItem E input w))).
Proof.
  destruct (inID input) as [id|] eqn:Hid; [destruct (decide (id = "")) as [->|Hne]|].
  - rewrite UpsertItem_create by auto. simpl.
    destruct (fault_at E (sent w)); [by apply touched_none|].
    destruct (collection w !! uuid_at E (drawn w)) eqn:Hfree; [by apply touched_none|].
    rewrite ListItems_collection. simpl. by eapply touched_insert.
  - rewrite (UpsertItem_update E input id) by done.
    destruct (fault_at E (sent w)); [by apply touched_none|].
    destruct (collection w !! id) as [d|] eqn:Hd; [|by apply touched_none].
    rewrite ListItems_collection. simpl. by eapply touched_update.
  - rewrite UpsertItem_create by auto. simpl.
    destruct (fault_at E (sent w)); [by apply touched_none|].
    destruct (collection w !! uuid_at E (drawn w)) eqn:Hfree; [by apply touched_none|].
    rewrite ListItems_collection. simpl. by eapply touched_insert.
Qed.

Lemma upsert_item_touched args w :
  touched (collection w) (collection (snd (upsert_item E args w))).
Proof.
  destruct (as_string (args !! "name")) as [name|] eqn:Hname.
  - destruct (decide (name = "")) as [->|Hne].
    + destruct (upsert_item_invalid args w) as [msg ->]; [auto|]. by apply touched_none.
    + rewrite (upsert_item_valid args name w (as_string_Some _ _ Hname) Hne). simpl.
      apply UpsertItem_touched.
  - destruct (upsert_item_invalid args w) as [msg ->]; [auto|]. by apply touched_none.
Qed.

Lemma remove_item_touched args w :
  touched (collection w) (collection (snd (remove_item E args w))).
Proof.
  destruct (as_string (args !! "id")) as [id|] eqn:Hid.
  - destruct (decide (id = "")) as [->|Hne].
    + unfold remove_item. rewrite Hid. simpl. by apply touched_none.
    + rewrite (remove_item_valid args id w (as_string_Some _ _ Hid) Hne). simpl.
      rewrite RemoveItem_eq.
      destruct (fault_at E (sent w)); [by apply touched_none|].
      rewrite ListItems_collection. simpl. by eapply touched_delete.
  - unfold remove_item. rewrite Hid. by apply touched_none.
Qed.

Lemma handle_touched req w :
  touched (collection w) (collection (handle E req w)).
Proof.
  destruct req as [tool args]. unfold handle, find_tool, tools. simpl.
  repeat (case_bool_decide; simpl);
    auto using upsert_item_touched, remove_item_touched.
  - apply touched_none, list_items_collection.
  - by apply touched_none.
Qed.

(** Starting from a keyed collection, every call leaves a keyed one. *)
Lemma touched_keyed c c' : touched c c' -> keyed c -> keyed c'.
Proof.
  intros [-> | id it Hfree -> Hit | id d input Hd -> | id ->] Hk k dk; [by apply Hk| | |].
  - rewrite lookup_insert. case_decide as Heq.
    + intros [= <-]. subst k. rewrite <- Hit.
      destruct it as [i n [q|] t]; unfold Item_toDoc; simpl;
        repeat (rewrite lookup_insert_eq || (rewrite lookup_insert_ne by done)); done.
    + by apply Hk.
  - rewrite lookup_insert. case_decide as Heq.
    + intros [= <-]. subst k. unfold updated.
      destruct (inQuantity input); rewrite !lookup_insert_ne by done; by apply Hk.
    + by apply Hk.
  - rewrite lookup_delete. case_decide; [done|]. by apply Hk.
Qed.

Lemma serve_keyed reqs :
  forall w, keyed (collection w) -> Forall (fun s => keyed (collection s)) (serve E reqs w).
Proof.
  induction reqs as [|req rest IH]; intros w Hk; simpl.
  - by constructor.
  - constructor; [done|]. apply IH. eapply touched_keyed; [apply handle_touched|done].
Qed.

(** A stored quantity survives whatever one call does to the collection,
    unless the call takes the document away. *)
Lemma touched_has_quantity id w w' :
  touched (collection w) (collection w') ->
  has_quantity id w -> is_Some (collection w' !! id) -> has_quantity id w'.
Proof.
  unfold has_quantity, item_at.
  intros Ht (it & Hit & Hq) Hstill.
  destruct (collection w !! id) as [d0|] eqn:Hd0; [|done].
  destruct Ht as [Hc | k new Hfree Hc _ | k d input Hd Hc | k Hc]; rewrite Hc in *.
  - exists it. by rewrite Hd0.
  - rewrite lookup_insert_ne by congruence. exists it. by rewrite Hd0.
  - destruct (decide (k = id)) as [->|Hk].
    + rewrite lookup_insert_eq. rewrite Hd0 in Hd. injection Hd as <-.
      unfold decode in *. simpl in *.
      destruct (DataTo d0) as [it0|] eqn:Hdec; [|done]. injection Hit as ->.
      rewrite (DataTo_updated input d0 it Hdec). eexists. split; [done|]. simpl.
      by destruct (inQuantity input).
    + rewrite lookup_insert_ne by done. exists it. by rewrite Hd0.
  - destruct (decide (k = id)) as [->|Hk].
    + rewrite lookup_delete_eq in Hstill. by destruct Hstill.
    + rewrite lookup_delete_ne by done. exists it. by rewrite Hd0.
Qed.

End Dispatcher.

(** ** The specification's claims *)

Section Claims.

Variable E : env.


(** C2.  An [upsert_item] call with a valid name and a non-empty [id] that
    names a stored document, once the update call reaches the store,
    rewrites fields of that document only: [name] becomes the submitted
    name, [quantity] becomes the submitted quantity when one is supplied and
    keeps its stored value otherwise, every other field ([id] and
    [created_at] among them) keeps its value, and no other document
    changes.  Read as items: the item keeps its id and its creation time. *)
Theorem upsert_item_with_id_updates_fields (w : world) (args : gmap string any)
    (name id : string) (d : gmap string fsvalue) :
  args !! "name" = Some (AnyString name) -> name <> "" ->
  args !! "id" = Some (AnyString id) -> id <> "" ->
  collection w !! id = Some d ->
  fault_at E (sent w) = None ->
  let w' := snd (upsert_item E args w) in
  exists d',
    collection w' !! id = Some d'
    /\ d' !! "name" = Some (StringValue name)
    /\ d' !! "quantity" =
         match nonempty (args !! "quantity") with
         | Some q => Some (StringValue q)
         | None => d !! "quantity"
         end
    /\ (forall field, field <> "name" -> field <> "quantity" -> d' !! field = d !! field)
    /\ (forall id', id' <> id -> collection w' !! id' = collection w !! id')
    /\ (forall it, DataTo d = Ok it ->
          DataTo d' =
            Ok (mkItem (ID it) name
                       (match nonempty (args !! "quantity") with
                        | Some q => Some q
                        | None => Quantity it
                        end)
                       (CreatedAt it))).
Proof.
  intros Hname Hne Hid Hidne Hd Hup w'. subst w'.
  rewrite (upsert_item_valid E args name w Hname Hne). simpl.
  rewrite (UpsertItem_update E _ id)
    by (simpl; by rewrite ?(nonempty_present args "id" id Hid Hidne)).
  rewrite Hup, Hd, ListItems_collection. simpl.
  exists (updated (input_of args name) d). split; [by rewrite lookup_insert_eq|].
  unfold updated, input_of. simpl.
  destruct (nonempty (args !! "quantity")) as [q|]; repeat split.
  - by rewrite lookup_insert_ne, lookup_insert_eq.
  - by rewrite lookup_insert_eq.
  - intros field H1 H2. by rewrite !lookup_insert_ne.
  - intros id' H. by rewrite lookup_insert_ne.
  - intros it Hit.
    by apply (DataTo_updated (mkItemInput (nonempty (args !! "id")) name (Some q)) d it).
  - by rewrite lookup_insert_eq.
  - by rewrite lookup_insert_ne.
  - intros field H1 H2. by rewrite !lookup_insert_ne.
  - intros id' H. by rewrite lookup_insert_ne.
  - intros it Hit.
    by apply (DataTo_updated (mkItemInput (nonempty (args !! "id")) name None) d it).
Qed.

(** C3.  An [upsert_item] call with a valid name and a non-empty [id] that
    names no stored document fails and leaves the collection as it was: no
    document is created and none is modified.  The error is [NotFound]
    whenever the update call reaches the store. *)
Theorem upsert_item_unknown_id_not_found (w : world) (args : gmap string any)
    (name id : string) :
  args !! "name" = Some (AnyString name) -> name <> "" ->
  args !! "id" = Some (AnyString id) -> id <> "" ->
  collection w !! id = None ->
  upsert_item E args w =
    (NewToolResultError
       (Sprintf "failed to upsert item: %v"
          (Errorf "update item: %w"
             (StatusError match fault_at E (sent w) with
                          | None => NotFound
                          | Some i => Infra i
                          end))),
     tick E w)
  /\ collection (tick E w) = collection w.
Proof.
  intros Hname Hne Hid Hidne Hd.
  rewrite (upsert_item_valid E args name w Hname Hne).
  rewrite (UpsertItem_update E _ id)
    by (simpl; by rewrite ?(nonempty_present args "id" id Hid Hidne)).
  rewrite Hd. by destruct (fault_at E (sent w)).
Qed.

(** C4.  A successful [upsert_item] or [remove_item] call made one mutating
    client call (the create of the generated id, the update, or the
    delete), ran [ListItems] on the world that call left, and returned the
    JSON of [{items: ...}] for the items of that list, which are the items
    of the collection as the mutation left it. *)
Theorem mutation_returns_the_list (w w' : world) (args : gmap string any) (text : json) :
  upsert_item E args w = (NewToolResultText text, w')
  \/ remove_item E args w = (NewToolResultText text, w') ->
  exists w1 items js,
    ((exists data, Doc_Create E (uuid_at E (drawn w)) data (draw w) = (Ok tt, w1))
     \/ (exists id updates, Doc_Update E id updates w = (Ok tt, w1))
     \/ (exists id, Doc_Delete E id w = (Ok tt, w1)))
    /\ ListItems E w1 = (Ok items, w')
    /\ items = List_spec (collection w1)
    /\ collection w' = collection w1
    /\ json_Marshal (mkListItemsResponse items) = Ok text
    /\ mapM Item_MarshalJSON items = Some js
    /\ text = JObject [("items", JArray js)].
Proof.
  assert (Hlist : forall w1,
    render_ok (fst (ListItems E w1)) text -> snd (ListItems E w1) = w' ->
    exists items js,
      ListItems E w1 = (Ok items, w') /\ items = List_spec (collection w1)
      /\ collection w' = collection w1
      /\ json_Marshal (mkListItemsResponse items) = Ok text
      /\ mapM Item_MarshalJSON items = Some js
      /\ text = JObject [("items", JArray js)]).
  { intros w1 (items & Hl & Hjs) Hw1.
    apply jsonResult_text in Hjs as (Hm & js & Hjs & ->).
    exists items, js. repeat split; try done.
    - rewrite <- Hl, <- Hw1. apply surjective_pairing.
    - rewrite ListItems_eq in Hl. destruct (fault_at E (sent w1)); [done|].
      by injection Hl as <-.
    - by rewrite <- (ListItems_collection E w1), Hw1. }
  intros [Hup | Hrm].
  - destruct (as_string (args !! "name")) as [name|] eqn:Hname;
      [destruct (decide (name = "")) as [->|Hne]|].
    + destruct (upsert_item_invalid E args w) as [msg Hmsg]; [auto|]. congruence.
    + rewrite (upsert_item_valid E args name w (as_string_Some _ _ Hname) Hne) in Hup.
      injection Hup as Hr Hw. apply render_text in Hr. fold (render_ok (fst (UpsertItem E (input_of args name) w)) text) in Hr.
      destruct (inID (input_of args name)) as [id|] eqn:Hid;
        [destruct (decide (id = "")) as [->|Hidne]|].
      * rewrite UpsertItem_create in Hr, Hw by auto. simpl in Hr, Hw.
        destruct (fault_at E (sent w)) eqn:Hf; [by destruct Hr as (? & ? & _)|].
        destruct (collection w !! uuid_at E (drawn w)) eqn:Hfree;
          [by destruct Hr as (? & ? & _)|].
        destruct (Hlist _ Hr Hw) as (items & js & H).
        eexists _, items, js. split; [|exact H].
        left. eexists. unfold Doc_Create. run. rewrite Hf. simpl. by rewrite Hfree.
      * rewrite (UpsertItem_update E _ id) in Hr, Hw by done.
        destruct (fault_at E (sent w)) eqn:Hf; [by destruct Hr as (? & ? & _)|].
        destruct (collection w !! id) eqn:Hd; [|by destruct Hr as (? & ? & _)].
        destruct (Hlist _ Hr Hw) as (items & js & H).
        eexists _, items, js. split; [|exact H].
        right. left. exists id.
        exists ([mkUpdate "name" name]
                ++ match nonempty (args !! "quantity") with
                   | Some q => [mkUpdate "quantity" q]
                   | None => []
                   end).
        unfold Doc_Update. run. rewrite Hf. simpl. rewrite Hd.
        unfold updated, input_of. simpl. by destruct (nonempty (args !! "quantity")).
      * rewrite UpsertItem_create in Hr, Hw by auto. simpl in Hr, Hw.
        destruct (fault_at E (sent w)) eqn:Hf; [by destruct Hr as (? & ? & _)|].
        destruct (collection w !! uuid_at E (drawn w)) eqn:Hfree;
          [by destruct Hr as (? & ? & _)|].
        destruct (Hlist _ Hr Hw) as (items & js & H).
        eexists _, items, js. split; [|exact H].
        left. eexists. unfold Doc_Create. run. rewrite Hf. simpl. by rewrite Hfree.
    + destruct (upsert_item_invalid E args w) as [msg Hmsg]; [auto|]. congruence.
  - destruct (as_string (args !! "id")) as [id|] eqn:Hid;
      [destruct (decide (id = "")) as [->|Hne]|].
    + unfold remove_item in Hrm. by rewrite Hid in Hrm.
    + rewrite (remove_item_valid E args id w (as_string_Some _ _ Hid) Hne) in Hrm.
      injection Hrm as Hr Hw. apply render_text in Hr.
      fold (render_ok (fst (RemoveItem E id w)) text) in Hr. rewrite RemoveItem_eq in Hr, Hw.
      destruct (fault_at E (sent w)) eqn:Hf; [by destruct Hr as (? & ? & _)|].
      destruct (Hlist _ Hr Hw) as (items & js & H).
      eexists _, items, js. split; [|exact H].
      right. right. exists id. unfold Doc_Delete. run. by rewrite Hf.
    + unfold remove_item in Hrm. by rewrite Hid in Hrm.
Qed.

(** C5.  An [upsert_item] call whose [name] argument is missing, is not a
    string, or is the empty string returns a validation error and leaves
    the world exactly as it found it: no round trip to the store was made,
    no identifier drawn, nothing logged. *)
Theorem upsert_item_invalid_name_is_local (w : world) (args : gmap string any) :
  args !! "name" = None
  \/ (exists v, args !! "name" = Some v /\ forall s, v <> AnyString s)
  \/ args !! "name" = Some (AnyString "") ->
  exists msg, upsert_item E args w = (NewToolResultError (Literal msg), w).
Proof.
  intros Hname. apply upsert_item_invalid.
  destruct Hname as [-> | [(v & -> & Hv) | ->]]; [by left| |by right].
  left. destruct v; try done. by destruct (Hv s).
Qed.

(** C6.  Every item decodes from its own document to itself, field for
    field.  So when an [upsert_item] call creates an item and the store can
    be reached, the document stored under the generated id decodes to
    exactly the created item; the call's own response lists that item; and
    a subsequent [list_items] does return a list, which holds that item,
    with the same id, name, quantity and [created_at].  In a collection
    where each document carries its own id, it is the only listed item with
    that id.  (Times are those the store keeps, in microseconds.) *)
Theorem created_item_round_trips (w : world) (args args' : gmap string any) (name : string) :
  args !! "name" = Some (AnyString name) -> name <> "" ->
  args !! "id" = None \/ args !! "id" = Some (AnyString "") ->
  fault_at E (sent w) = None ->
  collection w !! uuid_at E (drawn w) = None ->
  fault_at E (S (sent w)) = None ->
  fault_at E (S (S (sent w))) = None ->
  let id := uuid_at E (drawn w) in
  let item := mkItem id name (nonempty (args !! "quantity")) (wall w) in
  let w' := snd (upsert_item E args w) in
  (forall it, DataTo (Item_toDoc it) = Ok it)
  /\ item_at id w' = Some item
  /\ (exists returned fetched,
        fst (upsert_item E args w) = jsonResult (mkListItemsResponse returned)
        /\ fst (ListItems E w') = Ok fetched
        /\ fst (list_items E args' w') = jsonResult (mkListItemsResponse fetched)
        /\ item ∈ returned
        /\ item ∈ fetched
        /\ fetched ≡ₚ returned
        /\ (keyed (collection w) -> forall it, it ∈ fetched -> ID it = id -> it = item)).
Proof.
  intros Hname Hne Hid Hf Hfree Hf2 Hf3 id item w'. subst w'. fold id in Hfree.
  rewrite (upsert_item_valid E args name w Hname Hne). simpl.
  assert (Hin : item ∈ List_spec (<[id := Item_toDoc item]> (collection w))).
  { apply elem_of_List_spec. exists id, (Item_toDoc item).
    split; [by rewrite lookup_insert_eq | apply DataTo_toDoc]. }
  rewrite UpsertItem_create by (simpl; by rewrite (nonempty_absent args "id" Hid); left).
  simpl. fold id. rewrite Hf, Hfree. clear Hf.
  change (created E (input_of args name) w) with item.
  set (m := set_collection (<[id := Item_toDoc item]> (collection w)) (tick E (draw w))).
  set (w1 := snd (ListItems E m)).
  assert (Hr : fst (ListItems E m) = Ok (List_spec (<[id := Item_toDoc item]> (collection w)))).
  { rewrite ListItems_eq. subst m. simpl. by rewrite Hf2. }
  assert (Hc1 : collection w1 = <[id := Item_toDoc item]> (collection w)).
  { subst w1. by rewrite ListItems_collection. }
  assert (Hs1 : sent w1 = S (S (sent w))).
  { subst w1. rewrite ListItems_eq. subst m. simpl. by rewrite Hf2. }
  assert (Hl1 : fst (ListItems E w1) = Ok (List_spec (<[id := Item_toDoc item]> (collection w)))).
  { rewrite ListItems_eq, Hs1, Hf3. simpl. by rewrite Hc1. }
  split; [apply DataTo_toDoc|]. split.
  - unfold item_at. rewrite Hc1, lookup_insert_eq.
    unfold decode. simpl. by rewrite DataTo_toDoc.
  - exists (List_spec (<[id := Item_toDoc item]> (collection w))),
           (List_spec (<[id := Item_toDoc item]> (collection w))).
    rewrite Hr. split; [done|]. split; [done|].
    split; [|split; [done|split; [done|split; [done|]]]].
    + unfold list_items, bind. destruct (ListItems E w1) as [r w2]. simpl in Hl1. by subst r.
    + intros Hk it Hit Heq. apply elem_of_List_spec in Hit as (k & d & Hd & Hdec).
      rewrite lookup_insert in Hd. case_decide as Hkid.
      * injection Hd as <-. rewrite DataTo_toDoc in Hdec. by injection Hdec as <-.
      * exfalso. apply Hkid. rewrite <- Heq.
        eapply DataTo_keyed; [|done]. by apply Hk.
Qed.

(** C7.  For [upsert_item], an [id] argument that is the empty string
    behaves exactly as no [id] argument, and a [quantity] argument that is
    the empty string exactly as no [quantity] argument: same result, same
    world. *)
Theorem upsert_item_empty_string_is_absent (w : world) (args : gmap string any) :
  upsert_item E (<["id" := AnyString ""]> args) w = upsert_item E (delete "id" args) w
  /\ upsert_item E (<["quantity" := AnyString ""]> args) w
     = upsert_item E (delete "quantity" args) w.
Proof.
  split; unfold upsert_item;
    repeat (rewrite lookup_insert_eq || rewrite lookup_delete_eq
            || (rewrite lookup_insert_ne by done) || (rewrite lookup_delete_ne by done));
    simpl; done.
Qed.

(** C8.  A [remove_item] call whose delete reaches the store leaves no
    document under the id, so that in a keyed collection no item of a
    subsequent list carries that id.  Calling it again is no error: the
    delete of the now missing id can only fail for a reason of the
    infrastructure, and when both round trips of the second call get
    through the service returns the list, which the handler renders, and
    the collection stays as it was. *)
Theorem remove_item_is_idempotent (w : world) (args : gmap string any) (id : string) :
  args !! "id" = Some (AnyString id) -> id <> "" ->
  is_Some (collection w !! id) ->
  fault_at E (sent w) = None ->
  let w' := snd (remove_item E args w) in
  collection w' = delete id (collection w)
  /\ (keyed (collection w) ->
      forall items w'', ListItems E w' = (Ok items, w'') ->
      forall it, it ∈ items -> ID it <> id)
  /\ (forall e w2, Doc_Delete E id w' = (Err e, w2) ->
      exists i, fault_at E (sent w') = Some i /\ e = StatusError (Infra i))
  /\ (fault_at E (sent w') = None -> fault_at E (S (sent w')) = None ->
      exists items,
        fst (RemoveItem E id w') = Ok items
        /\ fst (remove_item E args w') = jsonResult (mkListItemsResponse items)
        /\ collection (snd (remove_item E args w')) = collection w').
Proof.
  intros Hid Hne _ Hf w'. subst w'.
  rewrite !(remove_item_valid E args id _ Hid Hne). simpl.
  set (w' := snd (RemoveItem E id w)).
  assert (Hc : collection w' = delete id (collection w)).
  { subst w'. rewrite RemoveItem_eq, Hf, ListItems_collection. done. }
  split; [done|]. split; [|split].
  - intros Hk items w'' Hl it Hit Heq.
    rewrite ListItems_eq in Hl. destruct (fault_at E (sent w')); [done|].
    injection Hl as <- _. rewrite Hc in Hit.
    apply elem_of_List_spec in Hit as (k & d & Hd & Hdec).
    rewrite lookup_delete in Hd. case_decide as Hkid; [done|].
    apply Hkid. rewrite <- Heq. eapply DataTo_keyed; [|done]. by apply Hk.
  - intros e w2. unfold Doc_Delete. run.
    destruct (fault_at E (sent w')) as [i|]; [|done].
    intros [= <- _]. by exists i.
  - intros Hf1 Hf2. rewrite RemoveItem_eq, Hf1, ListItems_eq. simpl. rewrite Hf2. simpl.
    eexists. split; [done|]. split; [done|].
    rewrite Hc. apply delete_delete_eq.
Qed.

(** C9.  [ListItems] fails only when the bulk fetch fails, with the error
    of the fetch.  Otherwise it returns [List_spec] of the collection: every
    document that decodes contributes its item, in the order of the store,
    and every document that does not is skipped with one warning in the
    log; no document is lost and the collection is not touched. *)
Theorem ListItems_skips_undecodable (w : world) :
  let docs := map_to_list (collection w) in
  ListItems E w =
    match fault_at E (sent w) with
    | Some i => (Err (Errorf "retrieve items: %w" (StatusError (Infra i))), tick E w)
    | None => (Ok (List_spec (collection w)), add_log (omap warning docs) (tick E w))
    end
  /\ (forall it, it ∈ List_spec (collection w) <->
        exists id d, collection w !! id = Some d /\ DataTo d = Ok it)
  /\ (forall l, l ∈ omap warning docs <->
        exists id d err, collection w !! id = Some d /\ DataTo d = Err err
                         /\ l = Printf "warn: unmarshal item %q: %v" id err)
  /\ (length (List_spec (collection w)) + length (omap warning docs))%nat
     = size (collection w)
  /\ collection (snd (ListItems E w)) = collection w.
Proof.
  intros docs. split; [apply ListItems_eq|]. split; [apply elem_of_List_spec|].
  split; [|split; [|apply ListItems_collection]].
  - intros l. subst docs. rewrite list_elem_of_omap. split.
    + intros [[id d] [Hin Hw]]. apply elem_of_map_to_list in Hin.
      unfold warning in Hw. simpl in Hw.
      destruct (DataTo d) as [|err] eqn:Hdec; [done|]. injection Hw as <-.
      by exists id, d, err.
    + intros (id & d & err & Hin & Hdec & ->). exists (id, d). split.
      * by apply elem_of_map_to_list.
      * unfold warning. simpl. by rewrite Hdec.
  - rewrite <- length_map_to_list. unfold List_spec. fold docs.
    induction docs as [|d rest IH]; [done|]. rewrite !omap_step.
    unfold decode at 1, warning at 1. destruct (DataTo (snd d)); simpl; lia.
Qed.

(** C10.  Along any sequence of tool calls, an item that has a quantity
    keeps having one for as long as its document stays in the store: no
    call returns a stored quantity to absent. *)
Theorem quantity_is_never_cleared (reqs : list CallToolRequest) (w : world) (id : string) :
  has_quantity id w ->
  Forall (fun s => is_Some (collection s !! id)) (serve E reqs w) ->
  Forall (has_quantity id) (serve E reqs w).
Proof.
  revert w. induction reqs as [|req rest IH]; intros w Hq Hstays; simpl in *.
  - by constructor.
  - constructor; [done|]. inversion Hstays as [|? ? _ Hrest]; subst.
    apply IH; [|done].
    apply (touched_has_quantity id w); [apply handle_touched|done|].
    destruct rest; simpl in Hrest; by inversion Hrest.
Qed.

End Claims.

(** ** The claims at work on a small list *)


Lemma upsert_item_with_id_updates_fields_witness :
  exists d',
    collection (snd (upsert_item E0 args_oat w1)) !! "a1" = Some d'
    /\ DataTo d' = Ok (mkItem "a1" "oat milk" (Some "2") 1700000000000000).
Proof.
  destruct (upsert_item_with_id_updates_fields E0 w1 args_oat "oat milk" "a1" (Item_toDoc milk))
    as (d' & Hd' & _ & _ & _ & _ & Hit);
    [reflexivity | discriminate | reflexivity | discriminate | reflexivity | reflexivity |].
  exists d'. split; [exact Hd'|]. exact (Hit milk (DataTo_toDoc milk)).
Defined.

Lemma upsert_item_unknown_id_not_found_witness :
  fst (upsert_item E0 args_ghost w1) =
    NewToolResultError
      (Sprintf "failed to upsert item: %v"
         (Errorf "update item: %w" (StatusError NotFound)))
  /\ collection (snd (upsert_item E0 args_ghost w1)) = collection w1.
Proof.
  destruct (upsert_item_unknown_id_not_found E0 w1 args_ghost "bread" "zz") as [H _];
    [reflexivity | discriminate | reflexivity | discriminate | reflexivity |].
  rewrite H. split; reflexivity.
Defined.

Lemma mutation_returns_the_list_witness :
  upsert_item E0 args_milk w0 = (NewToolResultText text_milk, w1)
  /\ exists w items, ListItems E0 w = (Ok items, w1) /\ items = List_spec (collection w1).
Proof.
  assert (H : upsert_item E0 args_milk w0 = (NewToolResultText text_milk, w1))
    by reflexivity.
  split; [exact H|].
  destruct (mutation_returns_the_list E0 w0 w1 args_milk text_milk (or_introl H))
    as (w & items & js & _ & Hl & Hi & Hc & _).
  exists w, items. split; [exact Hl|]. rewrite Hc. exact Hi.
Defined.

Lemma upsert_item_invalid_name_is_local_witness :
  exists msg,
    upsert_item E0 (<["name" := AnyNumber 3]> ∅) w1 = (NewToolResultError (Literal msg), w1).
Proof.
  apply (upsert_item_invalid_name_is_local E0 w1 (<["name" := AnyNumber 3]> ∅)).
  right. left. exists (AnyNumber 3). split; [reflexivity | discriminate].
Defined.

Lemma created_item_round_trips_witness :
  item_at "a1" w1 = Some milk
  /\ fst (upsert_item E0 args_milk w0) = jsonResult (mkListItemsResponse [milk])
  /\ fst (list_items E0 ∅ w1) = jsonResult (mkListItemsResponse [milk])
  /\ exists fetched,
       fst (ListItems E0 w1) = Ok fetched /\ milk ∈ fetched
       /\ forall it, it ∈ fetched -> ID it = "a1" -> it = milk.
Proof.
  destruct (created_item_round_trips E0 w0 args_milk ∅ "milk")
    as (_ & Hat & returned & fetched & _ & Hl & _ & _ & Hin & _ & Honly);
    [reflexivity | discriminate | left; reflexivity
     | reflexivity | reflexivity | reflexivity | reflexivity |].
  split; [exact Hat|]. split; [reflexivity|]. split; [reflexivity|].
  exists fetched. split; [exact Hl|]. split; [exact Hin|].
  apply Honly. intros id d Hd. simpl in Hd. by rewrite lookup_empty in Hd.
Defined.

Lemma remove_item_is_idempotent_witness :
  collection (snd (remove_item E0 args_oat w1)) = delete "a1" (collection w1)
  /\ (forall items w'',
        ListItems E0 (snd (remove_item E0 args_oat w1)) = (Ok items, w'') ->
        forall it, it ∈ items -> ID it <> "a1")
  /\ exists items,
       fst (RemoveItem E0 "a1" (snd (remove_item E0 args_oat w1))) = Ok items.
Proof.
  destruct (remove_item_is_idempotent E0 w1 args_oat "a1") as (Hc & Hgone & _ & Hagain);
    [reflexivity | discriminate | by eexists | reflexivity |].
  split; [exact Hc|]. split.
  - apply Hgone.
    apply (touched_keyed (collection w0)); [apply upsert_item_touched|].
    intros id d Hd. simpl in Hd. by rewrite lookup_empty in Hd.
  - destruct (Hagain eq_refl eq_refl) as (items & Hr & _). by exists items.
Defined.

Lemma quantity_is_never_cleared_witness :
  Forall (has_quantity "a1")
         (serve E0 [Call "upsert_item" args_oat; Call "list_items" ∅] w1).
Proof.
  apply (quantity_is_never_cleared E0).
  - exists milk. split; [reflexivity | by eexists].
  - repeat constructor; by eexists.
Defined.

(** *** The same list, call by call *)

Example list_after_create :
  fst (list_items E0 ∅ w1) = NewToolResultText text_milk.
Proof. reflexivity. Qed.

Example create_on_taken_id :
  upsert_item E_again args_milk w1 =
    (NewToolResultError
       (Sprintf "failed to upsert item: %v"
          (Errorf "create item: %w" (StatusError AlreadyExists))),
     tick E_again (draw w1)).
Proof. reflexivity. Qed.

Example update_keeps_quantity :
  fst (upsert_item E0 args_oat w1) =
    NewToolResultText
      (JObject [("items",
        JArray [JObject [("id", JString "a1"); ("name", JString "oat milk");
                         ("quantity", JString "2");
                         ("created_at", JTime 1700000000000000)]])]).
Proof. reflexivity. Qed.

Example remove_twice :
  fst (remove_item E0 args_oat w1) = NewToolResultText (JObject [("items", JArray [])])
  /\ fst (remove_item E0 args_oat (snd (remove_item E0 args_oat w1)))
     = NewToolResultText (JObject [("items", JArray [])]).
Proof. split; reflexivity. Qed.

Example list_skips_torn_document :
  fst (ListItems E0 w_torn) = Ok [milk]
  /\ logged (snd (ListItems E0 w_torn))
     = [Printf "warn: unmarshal item %q: %v" "t0" (CannotSet "Name" (IntegerValue 7))].
Proof. split; reflexivity. Qed.

Example create_then_lost_list :
  upsert_item E_lossy args_milk w0 =
    (NewToolResultError
       (Sprintf "failed to upsert item: %v"
          (Errorf "retrieve items: %w" (StatusError (Infra Unavailable)))),
     tick E_lossy (set_collection
                     (<["d4" := Item_toDoc (mkItem "d4" "milk" (Some "2") 1700000000000000)]> ∅)
                     (tick E_lossy (draw w0)))).
Proof. reflexivity. Qed.

Example remove_item_needs_an_id :
  remove_item E0 args_milk w1 = (NewToolResultError (Literal "invalid or missing 'id'"), w1).
Proof. reflexivity. Qed.

Example empty_quantity_keeps_stored :
  item_at "a1" (snd (upsert_item E0 (<["quantity" := AnyString ""]> args_oat) w1))
  = Some (mkItem "a1" "oat milk" (Some "2") 1700000000000000).
Proof. reflexivity. Qed.

Example new_quantity_is_written :
  item_at "a1" (snd (upsert_item E0 (<["quantity" := AnyString "3 l"]> args_oat) w1))
  = Some (mkItem "a1" "oat milk" (Some "3 l") 1700000000000000).
Proof. reflexivity. Qed.

(** ** Beyond the claims: what every call keeps *)

Section Steps.

Variable E : env.

Lemma written_touched c c' : written c c' -> touched c c'.
Proof.
  intros [? | id it ? ? ? _ | id d input ? ? _ | id ?];
    eauto using touched_none, touched_insert, touched_update, touched_delete.
Qed.

Lemma within_refl w : within w w.
Proof. unfold within. repeat split; auto; lia. Qed.

(** The worlds the service and the handlers end in. *)
Lemma ListItems_within m w :
  (sent w <= sent m <= sent w + 1)%nat -> (drawn w <= drawn m <= drawn w + 1)%nat ->
  wall w <= wall m -> logged m = logged w ->
  within w (snd (ListItems E m)).
Proof.
  intros Hs Hd Hw Hl. rewrite ListItems_eq. unfold within.
  destruct (fault_at E (sent m)); simpl; rewrite Hl; repeat split; auto; lia.
Qed.

Lemma UpsertItem_step input w :
  inName input <> "" ->
  written (collection w) (collection (snd (UpsertItem E input w)))
  /\ within w (snd (UpsertItem E input w)).
Proof.
  intros Hname.
  assert (Hlost1 : within w (tick E (draw w))) by (unfold within; simpl; repeat split; auto; lia).
  assert (Hlost0 : within w (tick E w)) by (unfold within; simpl; repeat split; auto; lia).
  assert (Hcreate :
    inID input = None \/ inID input = Some "" ->
    written (collection w) (collection (snd (UpsertItem E input w)))
    /\ within w (snd (UpsertItem E input w))).
  { intros Hid. rewrite UpsertItem_create by done. simpl.
    destruct (fault_at E (sent w)); [split; [by apply written_none|done]|].
    destruct (collection w !! uuid_at E (drawn w)) eqn:Hfree;
      [split; [by apply written_none|done]|].
    split.
    - rewrite ListItems_collection. simpl. by eapply written_insert.
    - apply ListItems_within; simpl; lia || done. }
  destruct (inID input) as [id|] eqn:Hid; [destruct (decide (id = "")) as [->|Hne]|]; auto.
  rewrite (UpsertItem_update E input id) by done.
  destruct (fault_at E (sent w)); [split; [by apply written_none|done]|].
  destruct (collection w !! id) as [d|] eqn:Hd; [|split; [by apply written_none|done]].
  split.
  - rewrite ListItems_collection. simpl. by eapply written_update.
  - apply ListItems_within; simpl; lia || done.
Qed.

Lemma upsert_item_step args w :
  written (collection w) (collection (snd (upsert_item E args w)))
  /\ within w (snd (upsert_item E args w)).
Proof.
  destruct (as_string (args !! "name")) as [name|] eqn:Hname.
  - destruct (decide (name = "")) as [->|Hne].
    + destruct (upsert_item_invalid E args w) as [msg ->]; [auto|].
      split; [by apply written_none | apply within_refl].
    + rewrite (upsert_item_valid E args name w (as_string_Some _ _ Hname) Hne). simpl.
      by apply UpsertItem_step.
  - destruct (upsert_item_invalid E args w) as [msg ->]; [auto|].
    split; [by apply written_none | apply within_refl].
Qed.

Lemma remove_item_step args w :
  written (collection w) (collection (snd (remove_item E args w)))
  /\ within w (snd (remove_item E args w)).
Proof.
  destruct (as_string (args !! "id")) as [id|] eqn:Hid.
  - destruct (decide (id = "")) as [->|Hne].
    + unfold remove_item. rewrite Hid. simpl.
      split; [by apply written_none | apply within_refl].
    + rewrite (remove_item_valid E args id w (as_string_Some _ _ Hid) Hne). simpl.
      rewrite RemoveItem_eq.
      destruct (fault_at E (sent w)).
      * split; [by apply written_none|]. unfold within. simpl. repeat split; auto; lia.
      * split.
        -- rewrite ListItems_collection. simpl. by eapply written_delete.
        -- apply ListItems_within; simpl; lia || done.
  - unfold remove_item. rewrite Hid.
    split; [by apply written_none | apply within_refl].
Qed.

Lemma list_items_step args w :
  written (collection w) (collection (snd (list_items E args w)))
  /\ within w (snd (list_items E args w)).
Proof.
  assert (Hw : snd (list_items E args w) = snd (ListItems E w)).
  { unfold list_items, bind. by destruct (ListItems E w) as [[items|err] w']. }
  rewrite Hw. split.
  - apply written_none, ListItems_collection.
  - apply ListItems_within; lia || done.
Qed.

Lemma handle_step req w :
  written (collection w) (collection (handle E req w)) /\ within w (handle E req w).
Proof.
  destruct req as [tool args]. unfold handle, find_tool, tools. simpl.
  repeat (case_bool_decide; simpl);
    auto using list_items_step, upsert_item_step, remove_item_step.
  split; [by apply written_none | apply within_refl].
Qed.

End Steps.

(** ** Beyond the claims: the handlers *)

Section Handlers.

Variable E : env.

(** X1.  A [remove_item] call whose [id] argument is missing, is not a
    string, or is the empty string is refused with the message
    [invalid or missing 'id'], and the world stays exactly as it was: the
    store is not reached. *)
Theorem remove_item_invalid_id_is_local (w : world) (args : gmap string any) :
  args !! "id" = None
  \/ (exists v, args !! "id" = Some v /\ forall s, v <> AnyString s)
  \/ args !! "id" = Some (AnyString "") ->
  remove_item E args w = (NewToolResultError (Literal "invalid or missing 'id'"), w).
Proof.
  unfold remove_item. intros [-> | [(v & -> & Hv) | ->]]; [done| |done].
  destruct v; try done. by destruct (Hv s).
Qed.

(** X2.  [list_items] does not look at its arguments and only reads: it
    spends exactly one round trip, draws no identifier and leaves the
    collection as it found it, whatever the outcome. *)
Theorem list_items_only_reads (w : world) (args args' : gmap string any) :
  list_items E args w = list_items E args' w
  /\ collection (snd (list_items E args w)) = collection w
  /\ sent (snd (list_items E args w)) = S (sent w)
  /\ drawn (snd (list_items E args w)) = drawn w.
Proof.
  split; [done|].
  assert (Hw : snd (list_items E args w) = snd (ListItems E w)).
  { unfold list_items, bind. by destruct (ListItems E w) as [[items|err] w']. }
  rewrite Hw, ListItems_eq. by destruct (fault_at E (sent w)).
Qed.

(** X4.  For [upsert_item], an [id] or a [quantity] argument that is not a
    string (a number, a boolean, null, an array, an object) is ignored: the
    call behaves exactly as if the argument were not there. *)
Theorem upsert_item_ignores_wrong_typed_optionals (w : world) (args : gmap string any)
    (v : any) :
  (forall s, v <> AnyString s) ->
  upsert_item E (<["id" := v]> args) w = upsert_item E (delete "id" args) w
  /\ upsert_item E (<["quantity" := v]> args) w = upsert_item E (delete "quantity" args) w.
Proof.
  intros Hv.
  assert (Hnone : as_string (Some v) = None).
  { destruct v; try done. by destruct (Hv s). }
  split; unfold upsert_item;
    repeat (rewrite lookup_insert_eq || rewrite lookup_delete_eq
            || (rewrite lookup_insert_ne by done) || (rewrite lookup_delete_ne by done));
    rewrite Hnone; done.
Qed.

(** X5.  The [upsert_item] handler is its validation followed by the
    service: a [name] that is no string is refused as
    [invalid or missing 'name'], an empty one as ['name' is required], both
    without touching the world and whatever the other arguments are; any
    other call is [UpsertItem] on the name and the two optional arguments
    with empty strings dropped, its error reported under
    [failed to upsert item] and its list rendered as JSON. *)
Theorem upsert_item_factors (w : world) (args : gmap string any) :
  upsert_item E args w =
    match as_string (args !! "name") with
    | None => (NewToolResultError (Literal "invalid or missing 'name'"), w)
    | Some name =>
        if decide (name = "") then (NewToolResultError (Literal "'name' is required"), w)
        else (render "failed to upsert item: %v" (fst (UpsertItem E (input_of args name) w)),
              snd (UpsertItem E (input_of args name) w))
    end.
Proof.
  destruct (as_string (args !! "name")) as [name|] eqn:Hname.
  - case_decide as Hne.
    + subst name. unfold upsert_item. rewrite Hname. simpl.
      destruct (as_string (args !! "id")) as [id|];
        destruct (as_string (args !! "quantity")) as [q|];
        repeat case_decide; simpl; done.
    + by apply upsert_item_valid; [apply as_string_Some|].
  - unfold upsert_item. by rewrite Hname.
Qed.

End Handlers.

(** ** Beyond the claims: what a call costs and what it may change *)

Section Effects.

Variable E : env.

(** X6.  Whatever the tool and its arguments, one call makes at most two
    round trips to the store and draws at most one identifier. *)
Theorem handle_costs_at_most_two_round_trips (req : CallToolRequest) (w : world) :
  (sent w <= sent (handle E req w) <= sent w + 2)%nat
  /\ (drawn w <= drawn (handle E req w) <= drawn w + 1)%nat.
Proof.
  destruct (handle_step E req w) as (_ & _ & Hs & Hd & _). by split.
Qed.

(** X7.  When the round trip of the mutation fails, [UpsertItem] and
    [RemoveItem] return the error of that step at once and do not go on to
    list: exactly one round trip was spent and nothing was logged.  (What
    became of the write at the store is not said.) *)
Theorem lost_mutation_is_not_listed (w : world) (i : infra) :
  fault_at E (sent w) = Some i ->
  (forall input,
      let step := match inID input with
                  | None => "create item: %w"
                  | Some id => if decide (id = "") then "create item: %w"
                               else "update item: %w"
                  end in
      fst (UpsertItem E input w) = Err (Errorf step (StatusError (Infra i)))
      /\ sent (snd (UpsertItem E input w)) = S (sent w)
      /\ logged (snd (UpsertItem E input w)) = logged w)
  /\ (forall id,
        fst (RemoveItem E id w) = Err (Errorf "delete item: %w" (StatusError (Infra i)))
        /\ sent (snd (RemoveItem E id w)) = S (sent w)
        /\ logged (snd (RemoveItem E id w)) = logged w).
Proof.
  intros Hf. split.
  - intros input step. subst step.
    destruct (inID input) as [id|] eqn:Hid; [destruct (decide (id = "")) as [->|Hne]|].
    + rewrite UpsertItem_create by auto. simpl. by rewrite Hf.
    + rewrite (UpsertItem_update E input id) by done. by rewrite Hf.
    + rewrite UpsertItem_create by auto. simpl. by rewrite Hf.
  - intros id. by rewrite RemoveItem_eq, Hf.
Qed.

(** X8.  When the mutation gets through but the list that follows is lost,
    the caller is told of an error although the store has changed: the
    document is deleted, inserted or rewritten all the same.  An error
    result does not mean that nothing was written. *)
Theorem mutation_stays_when_list_is_lost (w : world) (i : infra) :
  fault_at E (sent w) = None -> fault_at E (S (sent w)) = Some i ->
  let lost := Err (Errorf "retrieve items: %w" (StatusError (Infra i))) in
  (forall id,
      fst (RemoveItem E id w) = lost
      /\ collection (snd (RemoveItem E id w)) = delete id (collection w))
  /\ (forall input,
        inID input = None \/ inID input = Some "" ->
        collection w !! uuid_at E (drawn w) = None ->
        fst (UpsertItem E input w) = lost
        /\ collection (snd (UpsertItem E input w))
           = <[uuid_at E (drawn w) := Item_toDoc (created E input w)]> (collection w))
  /\ (forall input id d,
        inID input = Some id -> id <> "" -> collection w !! id = Some d ->
        fst (UpsertItem E input w) = lost
        /\ collection (snd (UpsertItem E input w)) = <[id := updated input d]> (collection w)).
Proof.
  intros H1 H2 lost. subst lost. split; [|split].
  - intros id. rewrite RemoveItem_eq, H1. split.
    + rewrite ListItems_eq. simpl. by rewrite H2.
    + by rewrite ListItems_collection.
  - intros input Hid Hfree. rewrite UpsertItem_create by done. simpl.
    rewrite H1, Hfree. split.
    + rewrite ListItems_eq. simpl. by rewrite H2.
    + by rewrite ListItems_collection.
  - intros input id d Hid Hne Hd. rewrite (UpsertItem_update E input id) by done.
    rewrite H1, Hd. split.
    + rewrite ListItems_eq. simpl. by rewrite H2.
    + by rewrite ListItems_collection.
Qed.

(** X9.  One call changes at most one document: there is an id outside of
    which the collection after the call is the collection before it. *)
Theorem handle_touches_one_document (req : CallToolRequest) (w : world) :
  exists id, forall k, k <> id -> collection (handle E req w) !! k = collection w !! k.
Proof.
  destruct (handle_touched E req w) as [Hc | id it _ Hc _ | id d input _ Hc | id Hc];
    rewrite Hc.
  - by exists "".
  - exists id. intros k Hk. by rewrite lookup_insert_ne.
  - exists id. intros k Hk. by rewrite lookup_insert_ne.
  - exists id. intros k Hk. by rewrite lookup_delete_ne.
Qed.

End Effects.

(** ** Beyond the claims: how the operations compose *)

Section Composition.

Variable E : env.

Lemma UpsertItem_keeps input w :
  dom (collection w) ⊆ dom (collection (snd (UpsertItem E input w))).
Proof.
  assert (Hcreate : inID input = None \/ inID input = Some "" ->
    dom (collection w) ⊆ dom (collection (snd (UpsertItem E input w)))).
  { intros Hid. rewrite UpsertItem_create by done. simpl.
    destruct (fault_at E (sent w)); [done|].
    destruct (collection w !! uuid_at E (drawn w)); [done|].
    rewrite ListItems_collection. simpl. apply dom_insert_subseteq. }
  destruct (inID input) as [id|] eqn:Hid; [destruct (decide (id = "")) as [->|Hne]|]; auto.
  rewrite (UpsertItem_update E input id) by done.
  destruct (fault_at E (sent w)); [done|].
  destruct (collection w !! id); [|done].
  rewrite ListItems_collection. simpl. apply dom_insert_subseteq.
Qed.

Lemma updated_twice input d : updated input (updated input d) = updated input d.
Proof.
  unfold updated. destruct (inQuantity input) as [q|].
  - apply map_eq. intros k. rewrite !lookup_insert. by repeat case_decide.
  - apply insert_insert_eq.
Qed.

Lemma touched_keeps_identity id it w w' :
  touched (collection w) (collection w') ->
  (exists it', item_at id w = Some it' /\ ID it' = ID it /\ CreatedAt it' = CreatedAt it) ->
  is_Some (collection w' !! id) ->
  exists it', item_at id w' = Some it' /\ ID it' = ID it /\ CreatedAt it' = CreatedAt it.
Proof.
  unfold item_at. intros Ht (it0 & Hit & Hid & Hat) Hstill.
  destruct (collection w !! id) as [d0|] eqn:Hd0; [|done].
  destruct Ht as [Hc | k new Hfree Hc _ | k d input Hd Hc | k Hc]; rewrite Hc in *.
  - exists it0. by rewrite Hd0.
  - rewrite lookup_insert_ne by congruence. exists it0. by rewrite Hd0.
  - destruct (decide (k = id)) as [->|Hk].
    + rewrite lookup_insert_eq. rewrite Hd0 in Hd. injection Hd as <-.
      unfold decode in *. simpl in *.
      destruct (DataTo d0) as [it1|] eqn:Hdec; [|done]. injection Hit as ->.
      rewrite (DataTo_updated input d0 it0 Hdec). eexists. split; [done|]. by simpl.
    + rewrite lookup_insert_ne by done. exists it0. by rewrite Hd0.
  - destruct (decide (k = id)) as [->|Hk].
    + rewrite lookup_delete_eq in Hstill. by destruct Hstill.
    + rewrite lookup_delete_ne by done. exists it0. by rewrite Hd0.
Qed.

(** X10.  [upsert_item] never removes a document: every id stored before
    the call is stored after it, whatever the arguments and the outcome. *)
Theorem upsert_item_never_deletes (w : world) (args : gmap string any) :
  dom (collection w) ⊆ dom (collection (snd (upsert_item E args w))).
Proof.
  destruct (as_string (args !! "name")) as [name|] eqn:Hname.
  - destruct (decide (name = "")) as [->|Hne].
    + by destruct (upsert_item_invalid E args w) as [msg ->]; [auto|].
    + rewrite (upsert_item_valid E args name w (as_string_Some _ _ Hname) Hne). simpl.
      apply UpsertItem_keeps.
  - by destruct (upsert_item_invalid E args w) as [msg ->]; [auto|].
Qed.

(** X11.  [remove_item] only removes: every document stored after the
    call was stored, unchanged, before it, and a document under any id
    other than the one named by the call is kept. *)
Theorem remove_item_only_removes (w : world) (args : gmap string any) :
  collection (snd (remove_item E args w)) ⊆ collection w
  /\ forall k, nonempty (args !! "id") <> Some k ->
       collection (snd (remove_item E args w)) !! k = collection w !! k.
Proof.
  destruct (as_string (args !! "id")) as [id|] eqn:Hid.
  - destruct (decide (id = "")) as [->|Hne].
    + unfold remove_item. rewrite Hid. simpl. done.
    + rewrite (remove_item_valid E args id w (as_string_Some _ _ Hid) Hne). simpl.
      rewrite RemoveItem_eq. destruct (fault_at E (sent w)); [done|].
      rewrite ListItems_collection. simpl. split; [apply delete_subseteq|].
      intros k Hk. apply lookup_delete_ne. intros <-. apply Hk.
      unfold nonempty. rewrite Hid. by rewrite decide_True.
  - unfold remove_item. rewrite Hid. done.
Qed.

(** X12.  Creating an item and then removing it under the id that was
    generated gives back the collection as it was before the two calls,
    when the create and the delete get through. *)
Theorem create_then_remove_restores (w : world) (args args' : gmap string any)
    (name : string) :
  args !! "name" = Some (AnyString name) -> name <> "" ->
  args !! "id" = None \/ args !! "id" = Some (AnyString "") ->
  args' !! "id" = Some (AnyString (uuid_at E (drawn w))) -> uuid_at E (drawn w) <> "" ->
  collection w !! uuid_at E (drawn w) = None ->
  fault_at E (sent w) = None -> fault_at E (S (S (sent w))) = None ->
  collection (snd (remove_item E args' (snd (upsert_item E args w)))) = collection w.
Proof.
  intros Hname Hne Hid Hid' Hu Hfree Hf1 Hf3.
  rewrite (remove_item_valid E args' _ _ Hid' Hu). simpl.
  rewrite (upsert_item_valid E args name w Hname Hne). simpl.
  rewrite UpsertItem_create by (simpl; by rewrite (nonempty_absent args "id" Hid); left).
  simpl. rewrite Hf1, Hfree.
  set (m := set_collection _ _).
  assert (Hs : sent (snd (ListItems E m)) = S (S (sent w))).
  { rewrite ListItems_eq. by destruct (fault_at E (sent m)). }
  rewrite RemoveItem_eq, Hs, Hf3, !ListItems_collection. simpl.
  by apply delete_insert_id.
Qed.

(** X13.  An update is idempotent: over a network that loses nothing,
    making the same [upsert_item] call with an id a second time leaves the
    collection as the first call left it. *)
Theorem update_is_idempotent (w : world) (args : gmap string any) (name id : string) :
  reliable E ->
  args !! "name" = Some (AnyString name) -> name <> "" ->
  args !! "id" = Some (AnyString id) -> id <> "" ->
  collection (snd (upsert_item E args (snd (upsert_item E args w))))
  = collection (snd (upsert_item E args w)).
Proof.
  intros Hnet Hname Hne Hid Hidne.
  assert (Hin : inID (input_of args name) = Some id)
    by (simpl; by rewrite (nonempty_present args "id" id Hid Hidne)).
  rewrite !(upsert_item_valid E args name _ Hname Hne). simpl.
  rewrite (UpsertItem_update E _ id _ Hin Hidne).
  set (w1 := snd (UpsertItem E (input_of args name) w)).
  assert (Hc1 : collection w1 =
            match collection w !! id with
            | Some d => <[id := updated (input_of args name) d]> (collection w)
            | None => collection w
            end).
  { subst w1. rewrite (UpsertItem_update E _ id _ Hin Hidne), Hnet.
    destruct (collection w !! id); [|done]. by rewrite ListItems_collection. }
  rewrite Hnet, Hc1. destruct (collection w !! id) as [d|] eqn:Hd.
  - rewrite lookup_insert_eq, ListItems_collection. simpl.
    by rewrite insert_insert_eq, updated_twice.
  - by rewrite Hd.
Qed.

(** X14.  Along any sequence of tool calls, for as long as a document
    stays in the store the item read from it keeps the [id] and the
    [created_at] it had at the start: no call rewrites either. *)
Theorem item_identity_is_immutable (reqs : list CallToolRequest) (w : world)
    (id : string) (it : Item) :
  item_at id w = Some it ->
  Forall (fun s => is_Some (collection s !! id)) (serve E reqs w) ->
  Forall (fun s => exists it', item_at id s = Some it'
                               /\ ID it' = ID it /\ CreatedAt it' = CreatedAt it)
         (serve E reqs w).
Proof.
  intros Hit.
  assert (H0 : exists it', item_at id w = Some it'
                /\ ID it' = ID it /\ CreatedAt it' = CreatedAt it) by by exists it.
  clear Hit. revert w H0.
  induction reqs as [|req rest IH]; intros w H0 Hstays; simpl in *.
  - by constructor.
  - constructor; [done|]. inversion Hstays as [|? ? _ Hrest]; subst.
    apply IH; [|done].
    apply (touched_keeps_identity id it w); [apply handle_touched|done|].
    destruct rest; simpl in Hrest; by inversion Hrest.
Qed.

End Composition.

(** ** Beyond the claims: what the store looks like after any calls *)

Section Invariants.

Variable E : env.

Lemma DataTo_updated_name input d it :
  DataTo (updated input d) = Ok it -> Name it = inName input.
Proof.
  unfold DataTo, updated.
  destruct (inQuantity input) as [q|];
    repeat (rewrite lookup_insert_eq || (rewrite lookup_insert_ne by done)); simpl;
    destruct (to_string "ID" (d !! "id")); try done;
    destruct (to_time "CreatedAt" (d !! "created_at")); try done;
    try (destruct (to_string_ptr "Quantity" (d !! "quantity")); try done);
    by intros [= <-].
Qed.

Lemma written_well_formed c c' : written c c' -> well_formed c -> well_formed c'.
Proof.
  intros Hw (Hk & Ha & Hn). split; [|split].
  - eapply touched_keyed; [by apply written_touched|done].
  - destruct Hw as [-> | id it Hfree -> Hid Hname | id d input Hd -> Hname | id ->];
      [done| | |]; intros k dk.
    + rewrite lookup_insert. case_decide; [|by apply Ha].
      intros [= <-]. exists it. apply DataTo_toDoc.
    + rewrite lookup_insert. case_decide; [|by apply Ha].
      intros [= <-]. destruct (Ha id d Hd) as [it Hit].
      eexists. by apply DataTo_updated.
    + rewrite lookup_delete. case_decide; [done|]. by apply Ha.
  - destruct Hw as [-> | id it Hfree -> Hid Hname | id d input Hd -> Hname | id ->];
      [done| | |]; intros k dk it'.
    + rewrite lookup_insert. case_decide; [|by apply Hn].
      intros [= <-]. rewrite DataTo_toDoc. by intros [= <-].
    + rewrite lookup_insert. case_decide; [|by apply Hn].
      intros [= <-] Hdec. by rewrite (DataTo_updated_name input d it' Hdec).
    + rewrite lookup_delete. case_decide; [done|]. by apply Hn.
Qed.

Lemma all_items_no_warning c : all_items c -> omap warning (map_to_list c) = [].
Proof.
  intros Ha. destruct (omap warning (map_to_list c)) as [|l ls] eqn:Hl; [done|].
  assert (Hin : l ∈ omap warning (map_to_list c)) by (rewrite Hl; left).
  apply list_elem_of_omap in Hin as ([k d] & Hkd & Hw).
  apply elem_of_map_to_list in Hkd. destruct (Ha k d Hkd) as [it Hit].
  unfold warning in Hw. simpl in Hw. by rewrite Hit in Hw.
Qed.

Lemma keyed_ids (l : list (string * gmap string fsvalue)) :
  Forall (fun kd => exists it, DataTo (snd kd) = Ok it /\ ID it = fst kd) l ->
  ID <$> omap decode l = fst <$> l.
Proof.
  induction 1 as [|kd l (it & Hit & Hid) _ IH]; [done|].
  rewrite omap_step. unfold decode at 1. rewrite Hit. cbv beta iota.
  rewrite !fmap_cons. by rewrite Hid, IH.
Qed.

(** X15.  A collection as the program writes it stays so: if every document
    carries its own id, reads as an item and has a non-empty name, then the
    same holds in every world a sequence of tool calls goes through.  The
    empty collection is such a collection. *)
Theorem serve_keeps_well_formed (reqs : list CallToolRequest) (w : world) :
  well_formed (collection w) ->
  Forall (fun s => well_formed (collection s)) (serve E reqs w).
Proof.
  revert w. induction reqs as [|req rest IH]; intros w Hwf; simpl.
  - by constructor.
  - constructor; [done|]. apply IH.
    eapply written_well_formed; [apply handle_step|done].
Qed.

(** What a well-formed collection would list. *)
Lemma List_spec_well_formed (c : gmap string (gmap string fsvalue)) :
  well_formed c ->
  NoDup (ID <$> List_spec c)
  /\ length (List_spec c) = size c
  /\ forall it, it ∈ List_spec c ->
       Name it <> "" /\ exists d, c !! ID it = Some d /\ DataTo d = Ok it.
Proof.
  intros (Hk & Ha & Hn).
  assert (Hids : ID <$> List_spec c = fst <$> map_to_list c).
  { apply keyed_ids. apply Forall_forall. intros [k d] Hkd.
    apply elem_of_map_to_list in Hkd. destruct (Ha k d Hkd) as [it Hit].
    exists it. split; [done|]. eapply DataTo_keyed; [|done]. by apply Hk. }
  split; [|split].
  - rewrite Hids. apply NoDup_fst_map_to_list.
  - rewrite <- length_map_to_list, <- (length_fmap ID), Hids. apply length_fmap.
  - intros it Hit. apply elem_of_List_spec in Hit as (k & d & Hd & Hdec).
    split; [by eapply Hn|].
    rewrite (DataTo_keyed d k it (Hk k d Hd) Hdec). by exists d.
Qed.

Lemma serve_well_formed reqs :
  forall w, well_formed (collection w) ->
            Forall (fun s => well_formed (collection s)) (serve E reqs w).
Proof.
  induction reqs as [|req rest IH]; intros w Hwf; simpl.
  - by constructor.
  - constructor; [done|]. apply IH.
    eapply written_well_formed; [apply handle_step|done].
Qed.

(** X16.  After any sequence of tool calls that starts from a well-formed
    collection (the empty one, say), a list whose fetch gets through
    returns one item per stored document, no two of them with the same id,
    each with a non-empty name and each the item stored under its id; the
    [list_items] handler renders that list. *)
Theorem served_list_has_unique_ids (reqs : list CallToolRequest) (w s : world)
    (args : gmap string any) :
  well_formed (collection w) ->
  s ∈ serve E reqs w ->
  fault_at E (sent s) = None ->
  exists items,
    fst (ListItems E s) = Ok items
    /\ fst (list_items E args s) = jsonResult (mkListItemsResponse items)
    /\ NoDup (ID <$> items)
    /\ length items = size (collection s)
    /\ forall it, it ∈ items -> Name it <> "" /\ item_at (ID it) s = Some it.
Proof.
  intros Hwf Hs Hf.
  assert (Hwfs : well_formed (collection s)).
  { pose proof (serve_well_formed reqs w Hwf) as Hall.
    rewrite Forall_forall in Hall. by apply Hall. }
  destruct (List_spec_well_formed (collection s) Hwfs) as (Hn & Hl & Hit).
  assert (Hr : fst (ListItems E s) = Ok (List_spec (collection s)))
    by (by rewrite ListItems_eq, Hf).
  exists (List_spec (collection s)). split; [done|]. split; [|split; [done|split; [done|]]].
  - unfold list_items, bind. destruct (ListItems E s) as [r s']. simpl in Hr. by subst r.
  - intros it Hin. destruct (Hit it Hin) as (Hname & d & Hd & Hdec).
    split; [done|]. unfold item_at, decode. rewrite Hd. simpl. by rewrite Hdec.
Qed.

(** X17.  In a well-formed collection every document reads as an item, so
    [ListItems] has nothing to warn about: along any sequence of tool calls
    starting from such a collection, the log stays as it was. *)
Theorem serve_logs_no_warning (reqs : list CallToolRequest) (w : world) :
  well_formed (collection w) ->
  Forall (fun s => logged s = logged w) (serve E reqs w).
Proof.
  revert w. induction reqs as [|req rest IH]; intros w Hwf; simpl.
  - by constructor.
  - constructor; [done|].
    destruct (handle_step E req w) as (Hw & Hl & _).
    assert (Hwf' : well_formed (collection (handle E req w)))
      by (by eapply written_well_formed).
    assert (Hlog : logged (handle E req w) = logged w).
    { destruct Hl as [-> | ->]; [done|].
      destruct Hwf' as (_ & Ha & _). rewrite (all_items_no_warning _ Ha).
      apply app_nil_r. }
    rewrite <- Hlog. by apply IH.
Qed.

End Invariants.

(** ** Beyond the claims: the response on the wire *)

Section Wire.

(** X19.  Encoding is all or nothing: [jsonResult] gives a text result with
    one JSON object per item exactly when every item's [created_at] has a
    year in [0, 9999]; a single item outside of it turns the whole response
    into the error [encode response], where [ListItems] would have skipped
    a single document it cannot decode. *)
Theorem jsonResult_is_all_or_nothing (v : ListItemsResponse) :
  (Forall (fun it => year_in_range (CreatedAt it) = true) (Items v) ->
     exists js, jsonResult v = NewToolResultText (JObject [("items", JArray js)])
                /\ length js = length (Items v))
  /\ (Exists (fun it => year_in_range (CreatedAt it) = false) (Items v) ->
       jsonResult v = NewToolResultError (Sprintf "encode response: %v" MarshalerError)).
Proof.
  unfold jsonResult, json_Marshal. split.
  - intros Hall.
    destruct (mapM Item_MarshalJSON (Items v)) as [js|] eqn:Hm.
    + exists js. split; [done|]. symmetry. by eapply length_mapM.
    + apply mapM_None_1 in Hm. apply Exists_exists in Hm as (it & Hin & Hit).
      rewrite Forall_forall in Hall. unfold Item_MarshalJSON in Hit.
      by rewrite (Hall it Hin) in Hit.
  - intros Hbad.
    assert (Hm : mapM Item_MarshalJSON (Items v) = None).
    { apply mapM_None_2. eapply Exists_impl; [done|].
      intros it Hit. unfold Item_MarshalJSON. by rewrite Hit. }
    by rewrite Hm.
Qed.

End Wire.

(** ** Beyond the claims: start-up *)

Section Startup.

Variable H : host.

(** The options [NewShoppingListService] builds the client with. *)
Lemma NewShoppingListService_cases (p d c cred : string) :
  p <> "" -> d <> "" -> c <> "" ->
  NewShoppingListService H p d c cred =
    if decide (cred = "") then
      match NewClientWithDatabase_err H p d [] with
      | Some err =>
          ([NewClientWithDatabase p d []],
           inr (fmt_Errorf "create firestore client: %w" (HostError err)))
      | None =>
          ([NewClientWithDatabase p d []],
           inl (mkShoppingListService (mkClient p d []) d c))
      end
    else
      match os_Stat H cred with
      | Some err => ([Stat cred], inr (fmt_Errorf "credentials file: %w" (HostError err)))
      | None =>
          match NewClientWithDatabase_err H p d [WithCredentialsFile cred] with
          | Some err =>
              ([Stat cred; NewClientWithDatabase p d [WithCredentialsFile cred]],
               inr (fmt_Errorf "create firestore client: %w" (HostError err)))
          | None =>
              ([Stat cred; NewClientWithDatabase p d [WithCredentialsFile cred]],
               inl (mkShoppingListService (mkClient p d [WithCredentialsFile cred]) d c))
          end
      end.
Proof.
  intros Hp Hd Hc. unfold NewShoppingListService.
  rewrite !decide_False by done.
  destruct (decide (cred = "")) as [->|Hcred].
  - rewrite decide_False by (intros ?; done). simpl.
    by destruct (NewClientWithDatabase_err H p d []).
  - rewrite decide_True by done.
    destruct (os_Stat H cred); [done|]. simpl.
    by destruct (NewClientWithDatabase_err H p d [WithCredentialsFile cred]).
Qed.

(** X20.  [NewShoppingListService] returns a service exactly when the
    project, the database and the collection are all non-empty, the
    credentials file (if one is named) can be stat-ed, and the client
    constructor succeeds; the service then holds the client built for that
    project and database, with the credentials option only if a file was
    named, and the database and collection it was given. *)
Theorem NewShoppingListService_succeeds_iff (p d c cred : string) (s : ShoppingListService) :
  let opts := if decide (cred = "") then [] else [WithCredentialsFile cred] in
  snd (NewShoppingListService H p d c cred) = inl s
  <-> (p <> "" /\ d <> "" /\ c <> ""
       /\ (cred = "" \/ os_Stat H cred = None)
       /\ NewClientWithDatabase_err H p d opts = None
       /\ s = mkShoppingListService (mkClient p d opts) d c).
Proof.
  intros opts. subst opts.
  destruct (decide (p = "")) as [->|Hp];
    [unfold NewShoppingListService; simpl; split; [done|by intros (? & _)]|].
  destruct (decide (d = "")) as [->|Hd];
    [unfold NewShoppingListService; rewrite decide_False by done; simpl;
     split; [done|by intros (_ & ? & _)]|].
  destruct (decide (c = "")) as [->|Hc];
    [unfold NewShoppingListService; rewrite !decide_False by done; simpl;
     split; [done|by intros (_ & _ & ? & _)]|].
  rewrite NewShoppingListService_cases by done.
  destruct (decide (cred = "")) as [->|Hcred].
  - destruct (NewClientWithDatabase_err H p d []); simpl.
    + split; [done|]. by intros (_ & _ & _ & _ & ? & _).
    + split; [intros [= <-]; auto 10|]. by intros (_ & _ & _ & _ & _ & ->).
  - destruct (os_Stat H cred); simpl.
    + split; [done|]. by intros (_ & _ & _ & [?|?] & _).
    + destruct (NewClientWithDatabase_err H p d [WithCredentialsFile cred]); simpl.
      * split; [done|]. by intros (_ & _ & _ & _ & ? & _).
      * split; [intros [= <-]; auto 10|]. by intros (_ & _ & _ & _ & _ & ->).
Qed.

(** X21.  [NewShoppingListService] checks before it acts: the only file it
    looks at is the credentials file it was given, and a client is only
    ever constructed for a non-empty project, database and collection, and
    after the credentials file, if one is named, was found. *)
Theorem NewShoppingListService_checks_first (p d c cred : string) (e : effect) :
  e ∈ fst (NewShoppingListService H p d c cred) ->
  p <> "" /\ d <> "" /\ c <> ""
  /\ ((e = Stat cred /\ cred <> "")
      \/ (exists opts, e = NewClientWithDatabase p d opts
                       /\ (cred = "" \/ os_Stat H cred = None))).
Proof.
  destruct (decide (p = "")) as [->|Hp];
    [unfold NewShoppingListService; simpl; by intros ?%elem_of_nil|].
  destruct (decide (d = "")) as [->|Hd];
    [unfold NewShoppingListService; rewrite decide_False by done; simpl;
     by intros ?%elem_of_nil|].
  destruct (decide (c = "")) as [->|Hc];
    [unfold NewShoppingListService; rewrite !decide_False by done; simpl;
     by intros ?%elem_of_nil|].
  rewrite NewShoppingListService_cases by done.
  intros He. repeat split; try done.
  destruct (decide (cred = "")) as [->|Hcred].
  - right. destruct (NewClientWithDatabase_err H p d []); simpl in He;
      apply list_elem_of_singleton in He; subst e; eauto.
  - destruct (os_Stat H cred) eqn:Hstat; simpl in He.
    + apply list_elem_of_singleton in He. by left.
    + destruct (NewClientWithDatabase_err H p d [WithCredentialsFile cred]); simpl in He;
        apply elem_of_cons in He as [->|He]; [by left| |by left|];
        apply list_elem_of_singleton in He; subst e; right; eauto.
Qed.

End Startup.

Set Warnings "-clear-no-such-hyp".

Section Process.

Variable H : host.

Ltac boot :=
  unfold main, fatal, deferred_Close, ShoppingListService_Close, NewShoppingListService;
  cbv zeta;
  repeat case_decide;
  repeat match goal with
         | |- context [os_Stat H ?p] => destruct (os_Stat H p) eqn:?
         | |- context [NewClientWithDatabase_err H ?p ?d ?o] =>
             destruct (NewClientWithDatabase_err H p d o) eqn:?
         | |- context [Start_err H ?a] => destruct (Start_err H a) eqn:?
         | |- context [ServeStdio_err H] => destruct (ServeStdio_err H) eqn:?
         | |- context [Close_err H] => destruct (Close_err H) eqn:?
         end;
  simpl.

(** X22.  Without a project id or without a database name in the
    environment, [main] prints one error line and exits with status 1: it
    does not look for credentials, builds no client and starts no
    transport. *)
Theorem main_needs_configuration (f : flags) :
  os_Getenv H "GOOGLE_CLOUD_PROJECT" = "" \/ os_Getenv H "FIRESTORE_DATABASE" = "" ->
  exists format, main H f = [Stderr format []; Exit 1].
Proof.
  intros Hcfg. unfold main, fatal. cbv zeta.
  destruct (decide (os_Getenv H "GOOGLE_CLOUD_PROJECT" = "")); [by eexists|].
  destruct (decide (os_Getenv H "FIRESTORE_DATABASE" = "")); [by eexists|].
  by destruct Hcfg.
Qed.

(** X23.  Once [flag.Parse] has returned, what [main] does ends in exactly
    one of two ways: through [fatal], with exit status 1 and without
    closing the client, or by returning, which closes the client that was
    created.  (A command line that [flag.Parse] refuses exits before this
    point and is not covered.) *)
Theorem main_closes_unless_fatal (f : flags) :
  (Exit 1 ∈ main H f <-> ~ exists c, Close c ∈ main H f)
  /\ (forall c, Close c ∈ main H f ->
        NewClientWithDatabase (client_projectID c) (client_database c) (client_opts c)
          ∈ main H f).
Proof.
  split.
  - boot; split; intros Hin; try (intros (c & Hc)); set_solver.
  - intros c. boot; intros Hin; set_solver.
Qed.

(** X25.  When the transport stops with an error, [main] exits through
    [fatal]: the client that was built for serving is never closed, since
    the deferred [Close] does not run past [os.Exit]. *)
Theorem failed_transport_leaves_client_open (f : flags) (err : string) :
  transport_err H f = Some err ->
  (ServeStdio ∈ main H f \/ exists addr, Start addr ∈ main H f) ->
  (exists p d opts, NewClientWithDatabase p d opts ∈ main H f)
  /\ (forall c, Close c ∉ main H f)
  /\ last (main H f) = Some (Exit 1).
Proof.
  unfold transport_err.
  boot; intros Herr Hin; try congruence;
    (split; [|split; [intros c|done]]); set_solver.
Qed.

(** X24.  Once [flag.Parse] has returned, [main] starts at most one
    transport: the HTTP server on [":" ++ addr] when the [-http] flag is
    not empty, the stdio server otherwise, and never both.  Whenever it
    starts one, the client was constructed earlier in the run, for the
    non-empty project and database named by the environment. *)
Theorem main_starts_one_transport (f : flags) :
  let transport := if decide (httpAddr f <> "") then Start (String.append ":" (httpAddr f))
                   else ServeStdio in
  (List.filter is_transport (main H f) = []
   \/ List.filter is_transport (main H f) = [transport])
  /\ (forall (i : nat) (e : effect),
        main H f !! i = Some e -> is_transport e = true ->
        exists (j : nat) opts,
          (j < i)%nat
          /\ main H f !! j
             = Some (NewClientWithDatabase (os_Getenv H "GOOGLE_CLOUD_PROJECT")
                                           (os_Getenv H "FIRESTORE_DATABASE") opts)
          /\ os_Getenv H "GOOGLE_CLOUD_PROJECT" <> ""
          /\ os_Getenv H "FIRESTORE_DATABASE" <> "").
Proof.
  intros transport. subst transport. split.
  - boot; auto.
  - boot; intros i e Hi He;
      repeat (destruct i as [|i]; simpl in Hi;
              [simplify_eq; try discriminate He | try discriminate Hi]);
      first [ exists 0%nat; eexists; split; [lia|]; split; [reflexivity|done]
            | exists 1%nat; eexists; split; [lia|]; split; [reflexivity|done] ].
Qed.

End Process.

(** ** The further properties at work *)

Lemma well_formed_empty : well_formed ∅.
Proof.
  repeat split; intros id d; by rewrite lookup_empty.
Qed.

Lemma well_formed_w1 : well_formed (collection w1).
Proof.
  apply (written_well_formed (collection w0)); [|apply well_formed_empty].
  apply (upsert_item_step E0 args_milk w0).
Qed.

Lemma remove_item_invalid_id_is_local_witness :
  remove_item E0 args_milk w1 = (NewToolResultError (Literal "invalid or missing 'id'"), w1).
Proof.
  apply (remove_item_invalid_id_is_local E0 w1 args_milk). left. reflexivity.
Defined.

Lemma upsert_item_ignores_wrong_typed_optionals_witness :
  upsert_item E0 (<["id" := AnyNumber 3]> args_milk) w0 = upsert_item E0 args_milk w0.
Proof.
  destruct (upsert_item_ignores_wrong_typed_optionals E0 w0 args_milk (AnyNumber 3)) as [Hid _];
    [discriminate|].
  rewrite Hid. reflexivity.
Defined.

Lemma lost_mutation_is_not_listed_witness :
  fst (RemoveItem E_down "a1" w1)
  = Err (Errorf "delete item: %w" (StatusError (Infra Unavailable)))
  /\ sent (snd (RemoveItem E_down "a1" w1)) = S (sent w1)
  /\ fst (UpsertItem E_down (input_of args_oat "oat milk") w1)
     = Err (Errorf "update item: %w" (StatusError (Infra Unavailable))).
Proof.
  destruct (lost_mutation_is_not_listed E_down w1 Unavailable) as [Hup Hrm]; [reflexivity|].
  destruct (Hrm "a1") as (Hr & Hs & _).
  destruct (Hup (input_of args_oat "oat milk")) as (Hu & _).
  split; [exact Hr|]. split; [exact Hs | exact Hu].
Defined.

Lemma mutation_stays_when_list_is_lost_witness :
  fst (UpsertItem E_lossy (input_of args_milk "milk") w0)
  = Err (Errorf "retrieve items: %w" (StatusError (Infra Unavailable)))
  /\ item_at "d4" (snd (UpsertItem E_lossy (input_of args_milk "milk") w0))
     = Some (mkItem "d4" "milk" (Some "2") 1700000000000000).
Proof.
  destruct (mutation_stays_when_list_is_lost E_lossy w0 Unavailable) as (_ & Hcreate & _);
    [reflexivity | reflexivity |].
  destruct (Hcreate (input_of args_milk "milk")) as [Hr Hc];
    [left; reflexivity | reflexivity |].
  split; [exact Hr|]. unfold item_at. rewrite Hc. reflexivity.
Defined.

Lemma create_then_remove_restores_witness :
  collection (snd (remove_item E0 args_oat (snd (upsert_item E0 args_milk w0)))) = ∅.
Proof.
  apply (create_then_remove_restores E0 w0 args_milk args_oat "milk");
    (reflexivity || discriminate || (left; reflexivity)).
Defined.

Lemma update_is_idempotent_witness :
  collection (snd (upsert_item E0 args_oat (snd (upsert_item E0 args_oat w1))))
  = collection (snd (upsert_item E0 args_oat w1)).
Proof.
  apply (update_is_idempotent E0 w1 args_oat "oat milk" "a1");
    [intros n; reflexivity | reflexivity | discriminate | reflexivity | discriminate].
Defined.

Lemma item_identity_is_immutable_witness :
  Forall (fun s => exists it', item_at "a1" s = Some it'
                               /\ ID it' = "a1" /\ CreatedAt it' = 1700000000000000)
         (serve E0 [Call "upsert_item" args_oat; Call "list_items" ∅] w1).
Proof.
  apply (item_identity_is_immutable E0 _ w1 "a1" milk).
  - reflexivity.
  - repeat constructor; by eexists.
Defined.

Lemma serve_keeps_well_formed_witness :
  Forall (fun s => well_formed (collection s))
         (serve E0 [Call "upsert_item" args_milk; Call "upsert_item" args_oat;
                    Call "remove_item" args_oat] w0).
Proof.
  apply (serve_keeps_well_formed E0). apply well_formed_empty.
Defined.

Lemma served_list_has_unique_ids_witness :
  exists items,
    fst (ListItems E0 w2) = Ok items
    /\ NoDup (ID <$> items)
    /\ length items = 2%nat.
Proof.
  destruct (served_list_has_unique_ids E0
              [Call "upsert_item" args_milk; Call "upsert_item" args_eggs] w0 w2 ∅)
    as (items & Hl & _ & Hn & Hlen & _);
    [apply well_formed_empty | right; right; left | reflexivity |].
  exists items. split; [exact Hl|]. split; [exact Hn|]. rewrite Hlen. reflexivity.
Defined.

Lemma serve_logs_no_warning_witness :
  Forall (fun s => logged s = [])
         (serve E0 [Call "upsert_item" args_milk; Call "list_items" ∅;
                    Call "remove_item" args_oat] w0).
Proof.
  apply (serve_logs_no_warning E0 _ w0). apply well_formed_empty.
Defined.

Lemma jsonResult_is_all_or_nothing_witness :
  (exists js, jsonResult (mkListItemsResponse [milk])
              = NewToolResultText (JObject [("items", JArray js)]))
  /\ jsonResult (mkListItemsResponse [milk; mkItem "x" "far" None 253402300800000000])
     = NewToolResultError (Sprintf "encode response: %v" MarshalerError).
Proof.
  split.
  - destruct (jsonResult_is_all_or_nothing (mkListItemsResponse [milk])) as [Hall _].
    destruct Hall as (js & Hjs & _); [by repeat constructor|]. by exists js.
  - apply (jsonResult_is_all_or_nothing
             (mkListItemsResponse [milk; mkItem "x" "far" None 253402300800000000])).
    right. by left.
Defined.

Lemma NewShoppingListService_checks_first_witness :
  "proj" <> "" /\ "db" <> "" /\ "shopping" <> ""
  /\ ((Stat "key.json" = Stat "key.json" /\ "key.json" <> "")
      \/ (exists opts, Stat "key.json" = NewClientWithDatabase "proj" "db" opts
                       /\ ("key.json" = "" \/ os_Stat H_ok "key.json" = None))).
Proof.
  apply (NewShoppingListService_checks_first H_ok "proj" "db" "shopping" "key.json").
  left.
Defined.

Lemma main_needs_configuration_witness :
  exists format, main H_bare http_8080 = [Stderr format []; Exit 1].
Proof.
  apply (main_needs_configuration H_bare http_8080). left. reflexivity.
Defined.

Lemma failed_transport_leaves_client_open_witness :
  (exists p d opts, NewClientWithDatabase p d opts ∈ main H_broken stdio)
  /\ (forall c, Close c ∉ main H_broken stdio)
  /\ last (main H_broken stdio) = Some (Exit 1).
Proof.
  apply (failed_transport_leaves_client_open H_broken stdio "broken pipe");
    [reflexivity|].
  left. right. left.
Defined.

(** *** Start-up, run by run *)

Example main_over_stdio :
  main H_ok stdio =
    [NewClientWithDatabase "proj" "db" []; ServeStdio; Close (mkClient "proj" "db" [])].
Proof. reflexivity. Qed.

Example main_over_http :
  main H_ok http_8080 =
    [Stat "key.json";
     NewClientWithDatabase "proj" "db" [WithCredentialsFile "key.json"];
     Stdout "Starting MCP server using Streamable HTTP transport on %s\n" ["8080"];
     Stdout "Project: %s | Database: %s | Collection: %s\n" ["proj"; "db"; "shopping"];
     Stdout "Streamable HTTP Endpoint: http://localhost:%s/mcp\n" ["8080"];
     Start ":8080";
     Close (mkClient "proj" "db" [WithCredentialsFile "key.json"])].
Proof. reflexivity. Qed.

Example main_with_broken_http :
  main H_broken http_8080 =
    [Stat "key.json";
     NewClientWithDatabase "proj" "db" [WithCredentialsFile "key.json"];
     Stdout "Starting MCP server using Streamable HTTP transport on %s\n" ["8080"];
     Stdout "Project: %s | Database: %s | Collection: %s\n" ["proj"; "db"; "shopping"];
     Stdout "Streamable HTTP Endpoint: http://localhost:%s/mcp\n" ["8080"];
     Start ":8080";
     Stderr "Error: Streamable HTTP server failed to start: %v\n"
            [inr (HostError "address already in use")];
     Exit 1].
Proof. reflexivity. Qed.

Example service_needs_a_collection :
  NewShoppingListService H_ok "proj" "db" "" "key.json"
  = ([], inr (errors_New "collection is required")).
Proof. reflexivity. Qed.
